(** * CLA-dwight: the signature cache and reload engine of [server.mjs]

    A shallow embedding of the cache part of the service: the signature
    ordering ([signatureComparer]), the per-user grouping done by
    [getSignees], the merge of locally stored signatures
    ([addLocalSignature], [getLocalSignatures]), the reload sequence with
    its file-cache fallback ([globalReload]), the upload path of [/list],
    and the file-cache serializer ([writeCacheFile], [readCacheFile]).

    Network, file-system and clock results are inputs of the model (a
    [world] for one handler invocation); the module-level variables
    [globalError], [globalGist], [globalSignees] and the directory of local
    signatures form the explicit [state]. *)

From Stdlib Require Import ZArith Bool Ascii Sorted Permutation.
From stdpp Require Import gmap strings list.

Set Warnings "-register-all,-clear-no-such-hyp".
Local Open Scope Z_scope.

(** ** JavaScript primitives *)

Module JS.

(** [!!s] for a string: only the empty string is falsy. *)
Definition truthy (s : string) : bool := negb (String.eqb s "").

(** [s || d] on strings. *)
Definition or_else (s d : string) : string := if truthy s then s else d.

(** [a < b] where each side is a string or [undefined] ([None]).
    Two strings are compared by code units; as soon as one side is
    [undefined] the comparison is made on numbers, [undefined] is [NaN]
    there, and the result is [false]. *)
Definition lt (a b : option string) : bool :=
  match a, b with
  | Some x, Some y => String.ltb x y
  | _, _ => false
  end.

(** [a != b] where each side is a string or [undefined]. *)
Definition neq (a b : option string) : bool :=
  match a, b with
  | Some x, Some y => negb (String.eqb x y)
  | None, None => false
  | _, _ => true
  end.

(** [Array.prototype.sort(comparefn)]: ECMAScript asks for a stable sort
    and fixes the result only when [comparefn] is a consistent
    comparator; the model is the stable insertion sort, which agrees with
    every conforming engine on consistent comparators. *)
Section Sort.
Context {A : Type} (comparefn : A → A → Z).

Fixpoint insert (x : A) (l : list A) : list A :=
  match l with
  | [] => [x]
  | y :: l' => if 0 <? comparefn x y then y :: insert x l' else x :: y :: l'
  end.

Definition sort (l : list A) : list A := foldr insert [] l.
End Sort.

(** [s.split(sep)] for a one-character separator. *)
Fixpoint split_go (sep : Ascii.ascii) (cur : string) (s : string) : list string :=
  match s with
  | EmptyString => [String.rev cur]
  | String c s' =>
      if Ascii.eqb c sep then String.rev cur :: split_go sep EmptyString s'
      else split_go sep (String c cur) s'
  end.
Definition split (sep : Ascii.ascii) (s : string) : list string :=
  split_go sep EmptyString s.

End JS.

(** ** Data model *)

(** Values thrown or rejected with. *)
Inductive error : Type :=
  | Error (message : string) (cause : option error)
  | AggregateError (message : string) (errors : list error)
  | TypeError (message : string).

Definition error_message (e : error) : string :=
  match e with
  | Error m _ | AggregateError m _ | TypeError m => m
  end.

(** [custom_fields] arrives from the CLA assistant as a JSON text and is
    replaced by the parsed object in [getSignatures]. *)
Inductive customFields : Type :=
  | Unparsed (json : string)
  | Fields (entries : list (string * string)).

(** One signature object. Properties that some producer of signatures
    leaves out are optional: [signatureFromUpload] sets neither
    [gist_version] nor [gist_committed_at] nor [revoked_at], and
    [getSignatures] sets [gist_committed_at] only for a known version. *)
Record Signature : Type := mkSignature {
  _id : string;
  created_at : string;
  updated_at : string;
  revoked_at : option string;
  custom_fields : option customFields;
  gist_url : string;
  gist_version : option string;
  gist_committed_at : option string;
  gist_filename : option string;
  origin : option string;
  user : string
}.

Module Version.
(** An element of [gist.versions]. *)
Record t : Type := Make { version : string; committed : string; url : string }.
End Version.

Module History.
(** An element of [response.data.history] of [/cla/getGist]. *)
Record t : Type := Make { version : string; committed_at : string; url : string }.
End History.

Module Gist.
(** [globalGist]: [{ url, filename, versions[] }]. *)
Record t : Type := Make {
  url : string;
  filename : option string;
  versions : list Version.t
}.
End Gist.

(** [response.data] of [/cla/getGist]; [files] holds the keys of the
    [files] object in their order. *)
Record gistData : Type := GistData {
  html_url : string;
  files : list string;
  history : list History.t
}.

(** [globalSignees]: a [Map] from user name to the list of that user's
    signatures, with the extra [timestamp] property. *)
Record Signees : Type := mkSignees {
  entries : gmap string (list Signature);
  timestamp : string
}.

(** A file of the directory of local signatures, as [fs.readFile] and
    [JSON.parse] see it. A file written by [writeLocalSignature] holds
    [JSON.stringify(signature)] of an object of strings, which [JSON.parse]
    gives back unchanged: [Signed]. *)
Inductive localFile : Type :=
  | Unreadable (e : error)
  | Malformed (e : error)
  | Signed (s : Signature).

(** Process configuration (environment variables). *)
Record config : Type := Config {
  CLA_FILECACHE : string;
  CLA_FILELOCAL : string;
  CLA_LIST_AUTH : option (list string);
  CLA_SIGN_AUTH : option (list string);
  GITHUB_ORGID : string;
  GITHUB_ORGTOKEN : string
}.

(** Library functions the handlers call and that are not part of the
    repository. *)
Record host : Type := Host {
  JSON_parse_fields : string → error + list (string * string);
  encodeURIComponent : string → string;
  path_basename : string → string;
  path_extname : string → string;
  base64_decode : string → string;
  Date_toISOString : option string → error + string;
  String_trim : string → string;
  String_toLowerCase : string → string
}.

(** What the outside answers during one handler invocation: the two
    calls to the CLA assistant (the one for the signatures by the version
    asked for), the two files of the file cache as [readCacheFile] returns
    them, the clock ([new Date().toISOString()], and [Date.now()] in
    decimal), the identifier drawn by [nanoid()], the time each read of a
    local signature file takes, and whether moving the uploaded file or
    writing the local signature file fails. *)
Record world : Type := World {
  post_getGist : error + gistData;
  post_getAll : string → error + list Signature;
  readFile_gist : error + Gist.t;
  readFile_signees : error + Signees;
  new_Date : string;
  Date_now : string;
  nanoid : string;
  latency : string → nat;
  fs_rename : option error;
  fs_writeFile : option error
}.

(** The mutable state of the process: the three module-level variables
    ([false] and [null] are both [None]), and the directory of local
    signatures by file name, which the start of the process creates. *)
Record state : Type := State {
  globalError : option error;
  globalGist : option Gist.t;
  globalSignees : option Signees;
  signaturesDir : gmap string localFile
}.

(** ** Helpers of [server.mjs] *)

(** [signatureComparer]: order by signed date descending, then version
    date descending, then update date descending. *)
Definition signatureComparer (a b : Signature) : Z :=
  if String.ltb (created_at a) (created_at b) then 1
  else if negb (String.eqb (created_at a) (created_at b)) then -1
  else if JS.lt (gist_committed_at a) (gist_committed_at b) then 1
  else if JS.neq (gist_committed_at a) (gist_committed_at b) then -1
  else if String.ltb (updated_at a) (updated_at b) then 1
  else if negb (String.eqb (updated_at a) (updated_at b)) then -1
  else 0.

(** [signeeComparer]: [a] and [b] are [Map] entries; reading [a[1][0]] of
    an empty list gives [undefined], whose [created_at] cannot be read. *)
Definition signeeComparer (a b : string * list Signature) : error + Z :=
  match a.2 !! 0%nat, b.2 !! 0%nat with
  | Some x, Some y => inr (signatureComparer x y)
  | _, _ => inl (TypeError "Cannot read properties of undefined (reading 'created_at')")
  end.

(** [getBasicUserName]: the authorized client's user name, [None] for
    [null]. *)
Definition getBasicUserName (h : host) (authorization : option string)
    (authList : option (list string)) : option string :=
  match authList with
  | None => None
  | Some authList =>
      match authorization with
      | None => None
      | Some header =>
          if negb (JS.truthy header) then None
          else
            let auth := JS.split " "%char header in
            match auth !! 0%nat, auth !! 1%nat with
            | Some scheme, Some credentials =>
                if negb (String.eqb scheme "Basic")
                   || negb (bool_decide (credentials ∈ authList))
                then None
                else
                  let decoded := base64_decode h credentials in
                  JS.split ":"%char decoded !! 0%nat
            | _, _ => None
            end
      end
  end.

(** [needsAuthorization]: [!user], so also true for an empty user name. *)
Definition needsAuthorization (h : host) (authorization : option string)
    (authList : option (list string)) : bool :=
  match getBasicUserName h authorization authList with
  | None => true
  | Some u => negb (JS.truthy u)
  end.

(** ** CLA assistant *)

(** [getGist], from the outcome of the POST to [/cla/getGist]. *)
Definition getGist (response : error + gistData) : error + Gist.t :=
  let failed cause :=
    inl (Error "Failed to receive gist for the organization." (Some cause)) in
  match response with
  | inl e => failed e
  | inr data =>
      let gist :=
        Gist.Make (html_url data)
          (find (λ f, negb (String.eqb f "metadata")) (files data))
          ((λ h, Version.Make (History.version h) (History.committed_at h)
                   (History.url h)) <$> history data) in
      if (0 <? length (Gist.versions gist))%nat then inr gist
      else failed (Error "No gist history available." None)
  end.

(** The [Map] of versions by version identifier built in [getSignatures]. *)
Definition versionsByVersion (gist : Gist.t) : gmap string Version.t :=
  foldl (λ map version, <[Version.version version := version]> map) ∅
        (Gist.versions gist).

(** The body of the loop of [getSignatures] for one signature. *)
Definition annotate (h : host) (gist : Gist.t) (signature : Signature)
  : error + Signature :=
  let committed :=
    match gist_version signature ≫= (versionsByVersion gist !!.) with
    | Some version => Some (Version.committed version)
    | None => gist_committed_at signature
    end in
  let parsed : error + option customFields :=
    match custom_fields signature with
    | None => inr None
    | Some (Unparsed json) =>
        if JS.truthy json then
          match JSON_parse_fields h json with
          | inl e => inl e
          | inr o => inr (Some (Fields o))
          end
        else inr (Some (Unparsed json))
    | Some (Fields _) =>
        match JSON_parse_fields h "[object Object]" with
        | inl e => inl e
        | inr o => inr (Some (Fields o))
        end
    end in
  match parsed with
  | inl e => inl e
  | inr fields =>
      inr (mkSignature (_id signature) (created_at signature)
             (updated_at signature) (revoked_at signature) fields
             (gist_url signature) (gist_version signature) committed
             (Gist.filename gist) (origin signature) (user signature))
  end.

Fixpoint annotateAll (h : host) (gist : Gist.t) (signatures : list Signature)
  : error + list Signature :=
  match signatures with
  | [] => inr []
  | signature :: rest =>
      match annotate h gist signature with
      | inl e => inl e
      | inr s =>
          match annotateAll h gist rest with
          | inl e => inl e
          | inr r => inr (s :: r)
          end
      end
  end.

(** [getSignatures], from the outcome of the POST to [/cla/getAll]. *)
Definition getSignatures (h : host) (gist : Gist.t) (gistVersion : string)
    (response : error + list Signature) : error + list Signature :=
  let failed cause :=
    inl (Error ("Failed to receive list of signees for version "
                +:+ gistVersion +:+ ".") (Some cause)) in
  match response with
  | inl e => failed e
  | inr signatures =>
      match annotateAll h gist signatures with
      | inl e => failed e
      | inr annotated => inr annotated
      end
  end.

(** The sequential loop of [getSignees] over [gist.versions]. *)
Fixpoint perVersionSignatures (h : host) (w : world) (gist : Gist.t)
    (versions : list Version.t) : error + list (list Signature) :=
  match versions with
  | [] => inr []
  | v :: rest =>
      match getSignatures h gist (Version.version v)
              (post_getAll w (Version.version v)) with
      | inl e => inl e
      | inr signatures =>
          match perVersionSignatures h w gist rest with
          | inl e => inl e
          | inr values => inr (signatures :: values)
          end
      end
  end.

(** The callback of the [reduce] in [getSignees]. *)
Definition collect (map : gmap string (list Signature)) (signature : Signature)
  : gmap string (list Signature) :=
  match map !! user signature with
  | Some signatures => <[user signature := signatures ++ [signature]]> map
  | None => <[user signature := [signature]]> map
  end.

(** The tail of [getSignees]: flatten, group by user, stamp, sort. *)
Definition buildSignees (now : string) (values : list (list Signature)) : Signees :=
  let map := foldl collect ∅ (concat values) in
  mkSignees (JS.sort signatureComparer <$> map) now.

(** [getSignees]. *)
Definition getSignees (h : host) (w : world) (gist : Gist.t) : error + Signees :=
  match perVersionSignatures h w gist (Gist.versions gist) with
  | inl e => inl e
  | inr values => inr (buildSignees (new_Date w) values)
  end.

(** ** Local signatures *)

(** [addLocalSignature] on an existing [Map]. *)
Definition addLocalSignature (map : Signees) (signature : Signature) (sort : bool)
  : Signees :=
  match entries map !! user signature with
  | Some signatures =>
      let pushed := signatures ++ [signature] in
      mkSignees (<[user signature :=
                 if sort then JS.sort signatureComparer pushed else pushed]>
               (entries map)) (timestamp map)
  | None =>
      mkSignees (<[user signature := [signature]]> (entries map)) (timestamp map)
  end.

(** The files of the directory in the order in which their reads settle:
    every order is the order of some [latency]. *)
Definition settled (w : world) (dir : gmap string localFile)
  : list (string * localFile) :=
  JS.sort (λ a b, Z.of_nat (latency w a.1) - Z.of_nat (latency w b.1))
          (map_to_list dir).

(** The [then]/[catch] pair attached to the read of one file: the
    signature is pushed, or the failure is reported with the file name. *)
Definition settle (acc : list Signature * list string) (file : string * localFile)
  : list Signature * list string :=
  match file.2 with
  | Signed signature => (acc.1 ++ [signature], acc.2)
  | Unreadable _ | Malformed _ =>
      (acc.1, acc.2 ++ ["Skipping failed to read signature file: " +:+ file.1])
  end.

(** [getLocalSignatures]: the signatures read, and the warnings logged. *)
Definition getLocalSignatures (cfg : config) (w : world)
    (dir : gmap string localFile) : list Signature * list string :=
  if negb (JS.truthy (CLA_FILELOCAL cfg)) then ([], [])
  else foldl settle ([], []) (settled w dir).

(** ** Cache and file cache *)

(** What one run of [globalReload] leaves behind: the error it throws, the
    pair it hands to [writeCacheFile], and the state. *)
Record outcome : Type := Outcome {
  thrown : option error;
  saved : option (Gist.t * Signees);
  next : state
}.

(** The loop [for (const signature of signatures) addLocalSignature(signees,
    signature, true)] with its [try]: on a [null] map the first call throws,
    the error is logged and nothing was changed. *)
Definition mergeLocal (signees : option Signees) (signatures : list Signature)
  : option Signees :=
  match signees with
  | None => None
  | Some map =>
      Some (foldl (λ map signature, addLocalSignature map signature true)
                  map signatures)
  end.

(** The local variables [gist], [signees], [gotCached] of [globalReload],
    and the [ex] of its [catch]. *)
Record locals : Type := Locals {
  local_gist : option Gist.t;
  local_signees : option Signees;
  gotCached : bool;
  caught : option error
}.

(** [try { gist = await getGist(); signees = await getSignees(gist); }] *)
Definition tryUpstream (h : host) (w : world) : locals :=
  match getGist (post_getGist w) with
  | inl ex => Locals None None false (Some ex)
  | inr gist =>
      match getSignees h w gist with
      | inl ex => Locals (Some gist) None false (Some ex)
      | inr signees => Locals (Some gist) (Some signees) false None
      end
  end.

(** [catch (ex) { ... }] up to the assignment to [globalError]: the file
    cache is read when it is configured and not disabled. *)
Definition catchUpstream (cfg : config) (w : world) (disableCache : bool)
    (l : locals) : locals :=
  match caught l with
  | None => l
  | Some ex =>
      if JS.truthy (CLA_FILECACHE cfg) && negb disableCache then
        match readFile_gist w with
        | inl exfs =>
            Locals (local_gist l) (local_signees l) false
              (Some (AggregateError "Both CLA and file cache failed." [ex; exfs]))
        | inr cachedGist =>
            match readFile_signees w with
            | inl exfs =>
                Locals (Some cachedGist) (local_signees l) false
                  (Some (AggregateError "Both CLA and file cache failed." [ex; exfs]))
            | inr cachedSignees =>
                Locals (Some cachedGist) (Some cachedSignees) true None
            end
        end
      else l
  end.

(** [globalReload(ignoreErrors, disableCache)]. *)
Definition globalReload (cfg : config) (h : host) (w : world)
    (ignoreErrors disableCache : bool) (st : state) : outcome :=
  let localPromise :=
    if JS.truthy (CLA_FILELOCAL cfg)
    then Some (getLocalSignatures cfg w (signaturesDir st)) else None in
  let l := catchUpstream cfg w disableCache (tryUpstream h w) in
  (* globalError = null in the try, globalError = ex in the catch *)
  let st := State (caught l) (globalGist st) (globalSignees st) (signaturesDir st) in
  match caught l, ignoreErrors with
  | Some ex, false => Outcome (Some ex) None st
  | _, _ =>
      let saved :=
        match local_gist l, local_signees l with
        | Some gist, Some signees =>
            if negb (gotCached l) && JS.truthy (CLA_FILECACHE cfg)
            then Some (gist, signees) else None
        | _, _ => None
        end in
      let signees :=
        match localPromise with
        | Some (signatures, _) => mergeLocal (local_signees l) signatures
        | None => local_signees l
        end in
      Outcome None saved
              (State (globalError st) (local_gist l) signees (signaturesDir st))
  end.

(** ** Web server *)

Record upload : Type := Upload { originalname : string; path : string }.

(** The parts of an HTTP request the handlers read; a missing body field
    or query parameter is [None]. *)
Record request : Type := Request {
  method : string;
  authorization : option string;
  file : option upload;
  body_name : option string;
  body_email : option string;
  body_employer : option string;
  body_signed : option string;
  query_reload : option string
}.

Record formData : Type := FormData {
  fileName : string;
  fileOriginalName : string;
  signerName : option string;
  signerEmail : option string;
  signerEmployer : option string;
  signedDate : option string
}.

(** [x || d] and [!x] for a string that may be [undefined], and the
    string an [undefined] or [null] becomes in a concatenation. *)
Definition or_default (x : option string) (d : string) : string :=
  match x with Some s => JS.or_else s d | None => d end.
Definition falsy (x : option string) : bool :=
  match x with Some s => negb (JS.truthy s) | None => true end.

(** [signatureFromUpload]; an invalid signed date makes [toISOString]
    throw. *)
Definition signatureFromUpload (cfg : config) (h : host) (w : world)
    (request : request) (formData : formData) : error + Signature :=
  let uniqueId := nanoid w in
  let now := new_Date w in
  match Date_toISOString h (signedDate formData) with
  | inl e => inl e
  | inr signed =>
      let employer :=
        or_default (String_trim h <$> signerEmployer formData) "" in
      let isEmployed :=
        JS.truthy employer
        && negb (String.eqb (String_toLowerCase h employer) "none") in
      let category :=
        if isEmployed
        then "(c) I am contributing as an individual because, even though I am employed, my employer has and claims no rights to my contributions."
        else "(b) I am contributing as an individual because I am self-employed or unemployed. I have read and agree to the CLA." in
      inr {|
        _id := uniqueId;
        created_at := signed;
        updated_at := now;
        revoked_at := None;
        custom_fields :=
          Some (Fields [("name", or_default (signerName formData) "");
                        ("email", or_default (signerEmail formData) "");
                        ("employer", JS.or_else employer "none");
                        ("category", category)]);
        gist_url := encodeURIComponent h (fileName formData);
        gist_version := None;
        gist_committed_at := None;
        gist_filename :=
          Some (JS.or_else (fileOriginalName formData) (fileName formData));
        origin :=
          Some ("local|" +:+
                default "null"
                  (getBasicUserName h (authorization request) (CLA_SIGN_AUTH cfg)));
        user := or_default (signerEmail formData) ""
      |}
  end.

(** [writeLocalSignature]: the file name in the directory of local
    signatures. *)
Definition localSignatureFile (signature : Signature) : string :=
  gist_url signature +:+ ".json".

(** The upload part of the [/list] handler: the upload status and the
    state it leaves. *)
Definition receiveUpload (cfg : config) (h : host) (w : world)
    (request : request) (st : state) : option string * state :=
  let canUpload :=
    JS.truthy (CLA_FILELOCAL cfg)
    && negb (needsAuthorization h (authorization request) (CLA_SIGN_AUTH cfg)) in
  if canUpload && String.eqb (method request) "POST" then
    match file request with
    | None => (Some "ERROR: CLA file is required.", st)
    | Some file =>
        let newName :=
          path_basename h
            (default "undefined" (body_email request) +:+ "#" +:+ Date_now w
             +:+ path_extname h (originalname file)) in
        let formData :=
          FormData newName (path_basename h (originalname file))
                   (body_name request) (body_email request)
                   (body_employer request) (body_signed request) in
        if falsy (signerName formData) then (Some "ERROR: Name is required.", st)
        else if falsy (signerEmail formData)
        then (Some "ERROR: E-mail is required.", st)
        else if falsy (signedDate formData)
        then (Some "ERROR: Signed date is required.", st)
        else
          match fs_rename w with
          | Some ex => (Some ("ERROR: " +:+ error_message ex), st)
          | None =>
              match signatureFromUpload cfg h w request formData with
              | inl ex => (Some ("ERROR: " +:+ error_message ex), st)
              | inr signature =>
                  match fs_writeFile w with
                  | Some ex => (Some ("ERROR: " +:+ error_message ex), st)
                  | None =>
                      let dir :=
                        <[localSignatureFile signature := Signed signature]>
                          (signaturesDir st) in
                      match globalSignees st with
                      | None =>
                          (Some ("ERROR: " +:+
                                 "Cannot read properties of null (reading 'has')"),
                           State (globalError st) (globalGist st) None dir)
                      | Some map =>
                          (Some "CLA added succesfully.",
                           State (globalError st) (globalGist st)
                                 (Some (addLocalSignature map signature true)) dir)
                      end
                  end
              end
          end
    end
  else (None, st).

(** A response: the status code and, where the upload status is the body,
    that status. *)
Record response : Type := Response { status : Z; uploadStatus : option string }.

(** [router.all('/list')] for a client that asks for html. The guard
    installed with [app.use("/list", ...)] answers 503 before the handler
    runs while [globalError] is set; it only removes calls and is left
    out. *)
Definition router_list (cfg : config) (h : host) (w : world)
    (request : request) (st : state) : response * state :=
  let '(uploadStatus, st) := receiveUpload cfg h w request st in
  if needsAuthorization h (authorization request) (CLA_LIST_AUTH cfg) then
    match uploadStatus with
    | Some text =>
        (Response (if String.prefix "ERROR" text then 400 else 200) uploadStatus, st)
    | None => (Response 401 None, st)
    end
  else
    let reloaded :=
      if bool_decide (query_reload request = Some "true")
      then globalReload cfg h w false true st
      else Outcome None None st in
    match thrown reloaded with
    | Some _ => (Response 500 uploadStatus, next reloaded)
    | None =>
        match globalSignees (next reloaded) with
        | None => (Response 500 uploadStatus, next reloaded)
        | Some _ => (Response 200 uploadStatus, next reloaded)
        end
    end.

(** [router.get('/reload')]. *)
Definition router_reload (cfg : config) (h : host) (w : world) (st : state)
  : response * state :=
  let reloaded := globalReload cfg h w false true st in
  match thrown reloaded with
  | None => (Response 200 None, next reloaded)
  | Some _ => (Response 500 None, next reloaded)
  end.

(** [router.get('/list/:username')] for a client that asks for text. *)
Definition router_list_username (cfg : config) (h : host) (w : world)
    (username : string) (reload : option string) (st : state) : response * state :=
  let reloaded :=
    if bool_decide (reload = Some "true")
    then globalReload cfg h w false true st
    else Outcome None None st in
  match thrown reloaded with
  | Some _ => (Response 500 None, next reloaded)
  | None =>
      match globalSignees (next reloaded) with
      | None => (Response 500 None, next reloaded)
      | Some signees =>
          match entries signees !! username with
          | None => (Response 404 None, next reloaded)
          | Some signatures =>
              if (length signatures <? 1)%nat then (Response 404 None, next reloaded)
              else
                match signatures !! 0%nat with
                | Some first =>
                    if negb (falsy (revoked_at first))
                    then (Response 410 None, next reloaded)
                    else (Response 200 None, next reloaded)
                | None => (Response 200 None, next reloaded)
                end
          end
      end
  end.

(** The start of the process. *)
Definition startup (cfg : config) (h : host) (w : world)
    (dir : gmap string localFile) : state :=
  let globalError :=
    if negb (JS.truthy (GITHUB_ORGID cfg))
    then Some (Error "GITHUB_ORGID environment variable not set." None)
    else if negb (JS.truthy (GITHUB_ORGTOKEN cfg))
    then Some (Error "GITHUB_ORGTOKEN environment variable not set." None)
    else None in
  let st := State globalError None None dir in
  match globalError with
  | Some _ => st
  | None => next (globalReload cfg h w true false st)
  end.

(** The requests that touch the cache, each with the answers of the
    outside during its handling. *)
Inductive call : Type :=
  | GetReload
  | GetListUsername (username : string) (reload : option string)
  | AllList (request : request).

Definition handle (cfg : config) (h : host) (st : state) (c : call * world)
  : state :=
  match c.1 with
  | GetReload => (router_reload cfg h c.2 st).2
  | GetListUsername username reload =>
      (router_list_username cfg h c.2 username reload st).2
  | AllList request => (router_list cfg h c.2 request st).2
  end.

(** The state after the start and a sequence of requests. *)
Definition serve (cfg : config) (h : host) (w0 : world)
    (dir : gmap string localFile) (calls : list (call * world)) : state :=
  foldl (handle cfg h) (startup cfg h w0 dir) calls.

(** ** Alternate lookup *)

(** The value of one custom field of a signature. *)
Definition customField (signature : Signature) (field : string) : option string :=
  match custom_fields signature with
  | Some (Fields kv) => snd <$> find (λ p, String.eqb p.1 field) kv
  | _ => None
  end.

(** Modelled from the spec: the alternate-lookup part of the snapshot
    builder (the configuration variable [CLA_LOOKUP_FIELDS] of the README),
    which [getSignees] of [server.mjs] does not have. "The builder
    additionally indexes signatories under those custom-field values; if
    the same custom-field value resolves to multiple distinct subject
    identifiers, all corresponding signatures are coalesced as if they
    belonged to one subject under that lookup key."

    [lookupValues] are the values a signatory carries in the configured
    fields; [indexSignatory] files the whole signatory under each of them,
    next to whatever is already filed there. *)
Definition lookupValues (lookupFields : list string) (signatures : list Signature)
  : list string :=
  remove_dups (signatures ≫= λ signature, omap (customField signature) lookupFields).

Definition indexSignatory (lookupFields : list string)
    (map : gmap string (list Signature)) (signatory : string * list Signature)
  : gmap string (list Signature) :=
  foldl (λ map value,
           if String.eqb value signatory.1 then map
           else <[value := default [] (map !! value) ++ signatory.2]> map)
        map (lookupValues lookupFields signatory.2).

Definition buildSigneesLookup (lookupFields : option (list string)) (now : string)
    (values : list (list Signature)) : Signees :=
  let byUser := foldl collect ∅ (concat values) in
  let map :=
    match lookupFields with
    | Some fields => foldl (indexSignatory fields) byUser (map_to_list byUser)
    | None => byUser
    end in
  mkSignees (JS.sort signatureComparer <$> map) now.

(** ** The file-cache serializer *)

Module Cache.

(** The JavaScript values that reach [writeCacheFile] and leave
    [readCacheFile]. A [Map] and a [Date] carry their own properties
    ([signees.timestamp], and what [Object.assign] copies); a [Date] is
    its ISO text; a hole of an array reads as [Undefined]. *)
Inductive jsval : Type :=
  | Undefined
  | Null
  | Bool (b : bool)
  | Number (n : Z)
  | Str (s : string)
  | Array (items : list jsval)
  | Object (props : list (string * jsval))
  | Map (entries : list (jsval * jsval)) (props : list (string * jsval))
  | Date (iso : string) (props : list (string * jsval)).

(** A JSON text, by its structure. [JSON.stringify] writes the text of a
    tree and [JSON.parse] reads the tree of a text. *)
Inductive json : Type :=
  | JNull
  | JBool (b : bool)
  | JNumber (n : Z)
  | JString (s : string)
  | JArray (items : list json)
  | JObject (members : list (string * json)).

(** [!!v]. *)
Definition truthy (v : jsval) : bool :=
  match v with
  | Undefined | Null => false
  | Bool b => b
  | Number n => negb (n =? 0)
  | Str s => JS.truthy s
  | Array _ | Object _ | Map _ _ | Date _ _ => true
  end.

(** Own properties, in insertion order. *)
Definition getProperty (key : string) (props : list (string * jsval)) : jsval :=
  default Undefined (snd <$> find (λ p, String.eqb p.1 key) props).

Fixpoint setProperty (key : string) (v : jsval) (props : list (string * jsval))
  : list (string * jsval) :=
  match props with
  | [] => [(key, v)]
  | p :: rest =>
      if String.eqb p.1 key then (key, v) :: rest
      else p :: setProperty key v rest
  end.

(** [Object.assign(target, source)] on the property lists. *)
Definition assign (target source : list (string * jsval)) : list (string * jsval) :=
  foldl (λ target p, setProperty p.1 p.2 target) target source.

(** [v.key] for any value: primitives and arrays have no such property. *)
Definition member (key : string) (v : jsval) : jsval :=
  match v with
  | Object props | Map _ props | Date _ props => getProperty key props
  | _ => Undefined
  end.

(** The replacer of [writeCacheFile]: [this_key] is [this[key]], [value]
    is what [JSON.stringify] passes (for a [Date], its [toJSON()]). The
    [__map] property is set on the [Map] itself. *)
Definition replacer (this_key value : jsval) : jsval :=
  match this_key with
  | Map entries props =>
      Map entries
          (setProperty "__map" (Array ((λ e, Array [e.1; e.2]) <$> entries)) props)
  | Date iso _ => Object [("__date", Str iso)]
  | _ => value
  end.

(** [SerializeJSONProperty] of ECMAScript with a replacer function:
    [toJSON], the replacer, then the value by its type. [None] is
    [undefined]; [fuel] bounds the nesting. *)
Fixpoint SerializeJSONProperty (fuel : nat) (replacer : jsval → jsval → jsval)
    (this_key : jsval) : option json :=
  match fuel with
  | O => None
  | S fuel =>
      let value := match this_key with Date iso _ => Str iso | _ => this_key end in
      match replacer this_key value with
      | Undefined => None
      | Null => Some JNull
      | Bool b => Some (JBool b)
      | Number n => Some (JNumber n)
      | Str s => Some (JString s)
      | Array items =>
          Some (JArray ((λ v, default JNull
                                (SerializeJSONProperty fuel replacer v)) <$> items))
      | Object props | Map _ props | Date _ props =>
          Some (JObject
                  (omap (λ p, pair p.1 <$> SerializeJSONProperty fuel replacer p.2)
                        props))
      end
  end.

(** The nesting depth of a value. *)
Fixpoint height (v : jsval) : nat :=
  match v with
  | Array items => S (max_list_with height items)
  | Object props => S (max_list_with (λ p, height p.2) props)
  | Map entries props =>
      S (Nat.max (max_list_with (λ e, Nat.max (height e.1) (height e.2)) entries)
                 (max_list_with (λ p, height p.2) props))
  | Date _ props => S (max_list_with (λ p, height p.2) props)
  | _ => O
  end.

(** [JSON.stringify(data, replacer)]. *)
Definition JSON_stringify (data : jsval) (replacer : jsval → jsval → jsval)
  : option json :=
  SerializeJSONProperty (3 * height data + 3) replacer data.

(** [writeCacheFile]: the text handed to [fs.writeFile], which refuses
    [undefined]. *)
Definition writeCacheFile (data : jsval) : error + json :=
  match JSON_stringify data replacer with
  | Some dataJson => inr dataJson
  | None => inl (TypeError "The data argument must be of type string")
  end.

(** [SameValueZero] as [Map] keys need it: objects are equal to
    themselves only. *)
Definition sameValueZero (a b : jsval) : bool :=
  match a, b with
  | Undefined, Undefined | Null, Null => true
  | Bool x, Bool y => Bool.eqb x y
  | Number x, Number y => x =? y
  | Str x, Str y => String.eqb x y
  | _, _ => false
  end.

Fixpoint mapSet (k v : jsval) (entries : list (jsval * jsval))
  : list (jsval * jsval) :=
  match entries with
  | [] => [(k, v)]
  | e :: rest =>
      if sameValueZero e.1 k then (e.1, v) :: rest else e :: mapSet k v rest
  end.

(** One element of the iterable given to [new Map]: it has to be an
    object, and its properties [0] and [1] are the key and the value. *)
Definition entryOf (item : jsval)   : error + jsval * jsval :=
  match item with
  | Array l => inr (default Undefined (l !! 0%nat), default Undefined (l !! 1%nat))
  | Object props | Map _ props | Date _ props =>
      inr (getProperty "0" props, getProperty "1" props)
  | _ => inl (TypeError "Iterator value is not an entry object")
  end.

Fixpoint mapOf (items : list jsval) (entries : list (jsval * jsval))
  : error + list (jsval * jsval) :=
  match items with
  | [] => inr entries
  | item :: rest =>
      match entryOf item with
      | inl e => inl e
      | inr kv => mapOf rest (mapSet kv.1 kv.2 entries)
      end
  end.

(** [new Map(iterable)], the entries of the new map. *)
Definition newMap (iterable : jsval) : error + list (jsval * jsval) :=
  match iterable with
  | Array items => mapOf items []
  | Map entries _ => mapOf ((λ e, Array [e.1; e.2]) <$> entries) []
  | Str s => inl (TypeError "Iterator value is not an entry object")
  | _ => inl (TypeError "object is not iterable")
  end.

(** The reviver of [readCacheFile]; [newDate] is the ISO text of
    [new Date(v)]. A falsy value falls through both [if]s and the
    function returns [undefined]. *)
Definition reviver (newDate : jsval → string) (value : jsval) : error + jsval :=
  if truthy value then
    if truthy (member "__map" value) then
      match newMap (member "__map" value) with
      | inl e => inl e
      | inr entries =>
          inr (Map entries
                   (assign [] match value with
                              | Object props | Map _ props | Date _ props => props
                              | _ => []
                              end))
      end
    else if truthy (member "__date" value) then
      inr (Date (newDate (member "__date" value))
                (assign [] match value with
                           | Object props | Map _ props | Date _ props => props
                           | _ => []
                           end))
    else inr value
  else inr Undefined.

(** The elements of an array, each revived in turn; the first error
    ends the walk. *)
Fixpoint reviveElements (revive : json → error + jsval) (l : list json)
  : error + list jsval :=
  match l with
  | [] => inr []
  | j :: l =>
      match revive j with
      | inl e => inl e
      | inr newElement =>
          match reviveElements revive l with
          | inl e => inl e
          | inr rest => inr (newElement :: rest)
          end
      end
  end.

(** The members of an object, each revived in turn; a member revived to
    [undefined] is deleted. *)
Fixpoint reviveMembers (revive : json → error + jsval) (l : list (string * json))
  : error + list (string * jsval) :=
  match l with
  | [] => inr []
  | m :: l =>
      match revive m.2 with
      | inl e => inl e
      | inr newElement =>
          match reviveMembers revive l with
          | inl e => inl e
          | inr rest =>
              inr match newElement with
                  | Undefined => rest
                  | _ => (m.1, newElement) :: rest
                  end
          end
      end
  end.

(** [InternalizeJSONProperty] of ECMAScript: the elements first, an
    element revived to [undefined] is deleted (a hole in an array), then
    the reviver on the value itself. *)
Fixpoint InternalizeJSONProperty (reviver : jsval → error + jsval) (val : json)
  : error + jsval :=
  match val with
  | JNull => reviver Null
  | JBool b => reviver (Bool b)
  | JNumber n => reviver (Number n)
  | JString s => reviver (Str s)
  | JArray items =>
      match reviveElements (InternalizeJSONProperty reviver) items with
      | inl e => inl e
      | inr l => reviver (Array l)
      end
  | JObject l =>
      match reviveMembers (InternalizeJSONProperty reviver) l with
      | inl e => inl e
      | inr props => reviver (Object props)
      end
  end.

(** [readCacheFile], from the text of the file. *)
Definition readCacheFile (newDate : jsval → string) (dataJson : json)
  : error + jsval :=
  InternalizeJSONProperty (reviver newDate) dataJson.

(** Write, then read what was written. *)
Definition roundTrip (newDate : jsval → string) (data : jsval) : error + jsval :=
  match writeCacheFile data with
  | inl e => inl e
  | inr dataJson => readCacheFile newDate dataJson
  end.

(** A property is one of the two tags of the serializer. *)
Definition isTag (p : string * jsval) : bool :=
  String.eqb p.1 "__map" || String.eqb p.1 "__date".

(** The value without the two tag properties that the serializer adds
    to maps and dates. *)
Fixpoint untagged (v : jsval) : jsval :=
  match v with
  | Array l => Array (untagged <$> l)
  | Object l => Object ((λ p, (p.1, untagged p.2)) <$> l)
  | Map entries l =>
      Map ((λ e, (untagged e.1, untagged e.2)) <$> entries)
          (filter (λ p, isTag p = false) ((λ p, (p.1, untagged p.2)) <$> l))
  | Date iso l =>
      Date iso (filter (λ p, isTag p = false) ((λ p, (p.1, untagged p.2)) <$> l))
  | _ => v
  end.

(** The members of an object from its properties and what is written for
    each: a property for which nothing is written is left out. *)
Definition members (props : list (string * option json)) : list (string * json) :=
  omap (λ m, pair m.1 <$> m.2) props.

(** The same for a [Map], whose [__map] property the replacer sets first:
    in its place when the map has one, last otherwise. *)
Fixpoint membersWithMap (map : json) (props : list (string * option json))
  : list (string * json) :=
  match props with
  | [] => [("__map", map)]
  | m :: rest =>
      if String.eqb m.1 "__map" then ("__map", map) :: members rest
      else members [m] ++ membersWithMap map rest
  end.

(** What [JSON.stringify] with the replacer of [writeCacheFile] writes for
    a value, by the structure of the value. *)
Fixpoint written (v : jsval) : option json :=
  match v with
  | Undefined => None
  | Null => Some JNull
  | Bool b => Some (JBool b)
  | Number n => Some (JNumber n)
  | Str s => Some (JString s)
  | Array items => Some (JArray ((λ v, default JNull (written v)) <$> items))
  | Object props => Some (JObject (members ((λ p, (p.1, written p.2)) <$> props)))
  | Map entries props =>
      Some (JObject
              (membersWithMap
                 (JArray ((λ e, JArray [default JNull (written e.1);
                                        default JNull (written e.2)]) <$> entries))
                 ((λ p, (p.1, written p.2)) <$> props)))
  | Date iso _ => Some (JObject [("__date", JString iso)])
  end.

(** The value with the tag properties that a round trip leaves on maps
    and dates. *)
Fixpoint tagged (v : jsval) : jsval :=
  match v with
  | Array l => Array (tagged <$> l)
  | Object l => Object ((λ p, (p.1, tagged p.2)) <$> l)
  | Map entries l =>
      Map ((λ e, (tagged e.1, tagged e.2)) <$> entries)
          (((λ p, (p.1, tagged p.2)) <$> l)
           ++ [("__map", Array ((λ e, Array [tagged e.1; tagged e.2]) <$> entries))])
  | Date iso _ => Date iso [("__date", Str iso)]
  | _ => v
  end.

(** Property lists with distinct names, none of them a tag. *)
Definition plainProps (props : list (string * jsval)) : Prop :=
  NoDup props.*1 ∧ Forall (λ p, isTag p = false) props.

(** The values that the file cache gives back: no falsy value anywhere
    ([undefined], [null], [false], [0], the empty string), objects and
    maps with distinct property names that are not tags, maps keyed by
    distinct non-empty strings, dates without properties of their own. *)
Inductive faithful : jsval → Prop :=
  | faithful_true : faithful (Bool true)
  | faithful_number (n : Z) : n ≠ 0 → faithful (Number n)
  | faithful_string (s : string) : s ≠ "" → faithful (Str s)
  | faithful_array (items : list jsval) :
      Forall faithful items → faithful (Array items)
  | faithful_object (props : list (string * jsval)) :
      plainProps props → Forall (λ p, faithful p.2) props →
      faithful (Object props)
  | faithful_map (kvs : list (string * jsval)) (props : list (string * jsval)) :
      NoDup kvs.*1 → Forall (λ kv, kv.1 ≠ "" ∧ faithful kv.2) kvs →
      plainProps props → Forall (λ p, faithful p.2) props →
      faithful (Map ((λ kv, (Str kv.1, kv.2)) <$> kvs) props)
  | faithful_date (iso : string) : iso ≠ "" → faithful (Date iso []).

End Cache.

(** ** Predicates of the properties *)

(** The key (created_at, gist_committed_at, updated_at) of [a] is below
    the key of [b], each component compared as the comparer compares it. *)
Definition key_lt (a b : Signature) : bool :=
  String.ltb (created_at a) (created_at b)
  || String.eqb (created_at a) (created_at b)
     && (JS.lt (gist_committed_at a) (gist_committed_at b)
         || negb (JS.neq (gist_committed_at a) (gist_committed_at b))
            && String.ltb (updated_at a) (updated_at b)).

(** Sorted descending: no signature is followed by one of a greater key. *)
Definition descending (l : list Signature) : Prop :=
  ∀ i j x y, (i < j)%nat → l !! i = Some x → l !! j = Some y → key_lt x y = false.

(** Index 0 holds a signature of maximum key. *)
Definition newestFirst (l : list Signature) : Prop :=
  ∀ x y, l !! 0%nat = Some x → y ∈ l → key_lt x y = false.

(** All signatures carry [gist_committed_at] ([d = true]), or none does. *)
Definition dated (d : bool) (s : Signature) : Prop :=
  bool_decide (is_Some (gist_committed_at s)) = d.

(** Every list of the map holds a signature. *)
Definition nonEmptyLists (map : gmap string (list Signature)) : Prop :=
  map_Forall (λ _ signatures, signatures ≠ []) map.

(** The published map, when there is one, has no empty list. *)
Definition publishedNonEmpty (st : state) : Prop :=
  ∀ signees, globalSignees st = Some signees → nonEmptyLists (entries signees).

(** The file cache, when it can be read, holds a map without empty list:
    what a run of the service saves there. *)
Definition cacheNonEmpty (w : world) : Prop :=
  ∀ signees, readFile_signees w = inr signees → nonEmptyLists (entries signees).


(** The file cache is configured, not disabled, and both of its files
    load. *)
Definition fallbackLoads (cfg : config) (w : world) (disableCache : bool) : bool :=
  JS.truthy (CLA_FILECACHE cfg) && negb disableCache
  && match readFile_gist w, readFile_signees w with
     | inr _, inr _ => true
     | _, _ => false
     end.

(** The error with which loading the two cache files fails. *)
Definition cacheLoadError (w : world) : option error :=
  match readFile_gist w, readFile_signees w with
  | inl exfs, _ => Some exfs
  | inr _, inl exfs => Some exfs
  | inr _, inr _ => None
  end.

(** The map after [addLocalSignature(map, signature, true)] for each of
    [signatures] in turn. *)
Definition merged (map : Signees) (signatures : list Signature) : Signees :=
  foldl (λ map signature, addLocalSignature map signature true) map signatures.

(** The signatures of user [u] in a map. *)
Definition signaturesOf (map : gmap string (list Signature)) (u : string)
  : list Signature :=
  default [] (map !! u).


(** What [getLocalSignatures] is to take from one file of the directory:
    its signature, or the report that it was skipped. *)
Definition signedIn (file : string * localFile) : option Signature :=
  match file.2 with Signed s => Some s | _ => None end.

Definition skippedAs (file : string * localFile) : option string :=
  match file.2 with
  | Signed _ => None
  | _ => Some ("Skipping failed to read signature file: " +:+ file.1)
  end.

(** The published map lists [signature] under its user. *)
Definition publishedFor (st : state) (signature : Signature) : Prop :=
  ∃ published l,
    globalSignees st = Some published
    ∧ entries published !! user signature = Some l
    ∧ signature ∈ l.


(** A signatory's list as the service makes one: a list of the map that
    [getSignees] returns, or the list that [addLocalSignature] with sorting
    leaves for the user of the added signature. *)
Inductive signatoryList : list Signature → Prop :=
  | list_of_getSignees (h : host) (w : world) (gist : Gist.t) (signees : Signees)
      (u : string) (l : list Signature) :
      getSignees h w gist = inr signees →
      entries signees !! u = Some l →
      signatoryList l
  | list_of_addLocalSignature (map : Signees) (signature : Signature)
      (l : list Signature) :
      entries (addLocalSignature map signature true) !! user signature = Some l →
      signatoryList l.




(** ** Concrete inputs *)

Module Example.

(** Stand-ins for the library functions, right on the strings of the
    examples. *)
Definition h : host := {|
  JSON_parse_fields := λ _, inr [];
  encodeURIComponent := λ s, s;
  path_basename := λ s, s;
  path_extname := λ _, ".pdf";
  base64_decode := λ s, if String.eqb s "ZG9yYTpwdw==" then "dora:pw" else s;
  Date_toISOString := λ x,
    match x with
    | Some s => inr (s +:+ "T00:00:00.000Z")
    | None => inl (Error "Invalid time value" None)
    end;
  String_trim := λ s, s;
  String_toLowerCase := λ s, s
|}.

Definition cfg : config := {|
  CLA_FILECACHE := "cache";
  CLA_FILELOCAL := "local";
  CLA_LIST_AUTH := None;
  CLA_SIGN_AUTH := Some ["ZG9yYTpwdw=="];
  GITHUB_ORGID := "1234";
  GITHUB_ORGTOKEN := "token"
|}.

Definition failed : error := Error "connect ECONNREFUSED" None.
Definition missing : error := Error "ENOENT: no such file or directory" None.

(** A document with three versions, in the order the history lists
    them. *)
Definition data : gistData := {|
  html_url := "https://gist.github.com/org/cla";
  files := ["metadata"; "cla.md"];
  history := [History.Make "v1" "2024-01-01T00:00:00Z" "https://gist/v1";
              History.Make "v3" "2024-03-01T00:00:00Z" "https://gist/v3";
              History.Make "v2" "2024-02-01T00:00:00Z" "https://gist/v2"]
|}.

(** A signature as [/cla/getAll] delivers it. *)
Definition upstream (id who created version : string) : Signature := {|
  _id := id;
  created_at := created;
  updated_at := created;
  revoked_at := None;
  custom_fields := None;
  gist_url := "https://gist.github.com/org/cla";
  gist_version := Some version;
  gist_committed_at := None;
  gist_filename := None;
  origin := None;
  user := who
|}.

(** Five signatures of one user with the same [created_at]; two of them
    name a version that the history does not list. *)
Definition noon : string := "2024-05-05T12:00:00.000Z".
Definition s1 : Signature := upstream "s1" "bob" noon "v1".
Definition s2 : Signature := upstream "s2" "bob" noon "v2".
Definition s3 : Signature := upstream "s3" "bob" noon "v3".
Definition u1 : Signature := upstream "u1" "bob" noon "v0".
Definition u2 : Signature := upstream "u2" "bob" noon "v0".

Definition tied : world := {|
  post_getGist := inr data;
  post_getAll := λ version,
    if String.eqb version "v1" then inr [s1; u1]
    else if String.eqb version "v3" then inr [s3; u2]
    else if String.eqb version "v2" then inr [s2]
    else inr [];
  readFile_gist := inl missing;
  readFile_signees := inl missing;
  new_Date := "2024-06-01T00:00:00.000Z";
  Date_now := "1717200000000";
  nanoid := "V1StGXR8_Z5jdHi6B-myT";
  latency := λ _, 0%nat;
  fs_rename := None;
  fs_writeFile := None
|}.

(** A signature as [signatureFromUpload] makes one. *)
Definition uploaded (id who signed now : string) : Signature := {|
  _id := id;
  created_at := signed;
  updated_at := now;
  revoked_at := None;
  custom_fields :=
    Some (Fields [("name", who); ("email", who); ("employer", "none")]);
  gist_url := who +:+ "#" +:+ id +:+ ".pdf";
  gist_version := None;
  gist_committed_at := None;
  gist_filename := Some "cla.pdf";
  origin := Some "local|null";
  user := who
|}.

Definition amy1 : Signature :=
  uploaded "a1" "amy@example.org" "2024-04-01T00:00:00.000Z" "2024-04-02T08:00:00.000Z".
Definition amy2 : Signature :=
  uploaded "a2" "amy@example.org" "2024-04-01T00:00:00.000Z" "2024-04-03T09:30:00.000Z".

Definition amyOnly : Signees :=
  mkSignees {[ "amy@example.org" := [amy1] ]} "2024-04-02T08:00:01.000Z".

(** The CLA assistant cannot be reached and there is no file cache. *)
Definition offline : world := {|
  post_getGist := inl failed;
  post_getAll := λ _, inl failed;
  readFile_gist := inl missing;
  readFile_signees := inl missing;
  new_Date := "2024-06-02T00:00:00.000Z";
  Date_now := "1717286400000";
  nanoid := "Uakgb_J5m9g-0JDMbcJqL";
  latency := λ _, 0%nat;
  fs_rename := None;
  fs_writeFile := None
|}.

Definition cachedGist : Gist.t :=
  Gist.Make "https://gist.github.com/org/cla" (Some "cla.md")
            [Version.Make "v1" "2024-01-01T00:00:00Z" "https://gist/v1"].

Definition carl : Signature := {|
  _id := "c1";
  created_at := "2024-01-15T09:00:00.000Z";
  updated_at := "2024-01-15T09:00:00.000Z";
  revoked_at := None;
  custom_fields := Some (Fields [("name", "Carl")]);
  gist_url := "https://gist.github.com/org/cla";
  gist_version := Some "v1";
  gist_committed_at := Some "2024-01-01T00:00:00Z";
  gist_filename := Some "cla.md";
  origin := None;
  user := "carl"
|}.

Definition cachedSignees : Signees :=
  mkSignees {[ "carl" := [carl] ]} "2024-05-30T00:00:00.000Z".

(** The CLA assistant cannot be reached and the file cache loads. *)
Definition cached : world := {|
  post_getGist := inl failed;
  post_getAll := λ _, inl failed;
  readFile_gist := inr cachedGist;
  readFile_signees := inr cachedSignees;
  new_Date := "2024-06-02T00:00:00.000Z";
  Date_now := "1717286400000";
  nanoid := "Uakgb_J5m9g-0JDMbcJqL";
  latency := λ _, 0%nat;
  fs_rename := None;
  fs_writeFile := None
|}.

(** The CLA assistant answers with a document without history. *)
Definition noHistory : world := {|
  post_getGist := inr (GistData "https://gist.github.com/org/cla" ["cla.md"] []);
  post_getAll := λ _, inr [];
  readFile_gist := inl missing;
  readFile_signees := inl missing;
  new_Date := "2024-06-02T00:00:00.000Z";
  Date_now := "1717286400000";
  nanoid := "Uakgb_J5m9g-0JDMbcJqL";
  latency := λ _, 0%nat;
  fs_rename := None;
  fs_writeFile := None
|}.

(** A state with a published snapshot. *)
Definition serving : state :=
  State None (Some cachedGist) (Some cachedSignees)
        {[ "amy@example.org#a1.pdf.json" := Signed amy1 ]}.

(** A directory of local signatures with an unreadable entry and a file
    that is not JSON. *)
Definition damaged : gmap string localFile :=
  {[ "amy@example.org#a1.pdf.json" := Signed amy1;
     "broken.json" := Malformed (Error "Unexpected end of JSON input" None);
     "lost+found" := Unreadable (Error "EISDIR: illegal operation on a directory" None);
     "amy@example.org#a2.pdf.json" := Signed amy2 ]}.

(** An upload of a signed CLA by a client with the credentials
    [dora:pw]. *)
Definition post : request := {|
  method := "POST";
  authorization := Some "Basic ZG9yYTpwdw==";
  file := Some (Upload "cla.pdf" "uploads/3f9c");
  body_name := Some "Dora";
  body_email := Some "dora@example.org";
  body_employer := Some "none";
  body_signed := Some "2024-06-01";
  query_reload := None
|}.

(** Two users that share the value of the custom field [internalId]. *)
Definition member (id who created : string) (fields : list (string * string))
  : Signature := {|
  _id := id;
  created_at := created;
  updated_at := created;
  revoked_at := None;
  custom_fields := Some (Fields fields);
  gist_url := "https://gist.github.com/org/cla";
  gist_version := Some "v1";
  gist_committed_at := Some "2024-01-01T00:00:00Z";
  gist_filename := Some "cla.md";
  origin := None;
  user := who
|}.

Definition alice1 : Signature :=
  member "al1" "alice" "2024-02-01T10:00:00.000Z" [("internalId", "42")].
Definition alice2 : Signature :=
  member "al2" "alice" "2023-11-01T10:00:00.000Z" [("name", "Alice")].
Definition alias1 : Signature :=
  member "ak1" "a.k.a" "2024-03-01T10:00:00.000Z" [("internalId", "42")].

(** A signee map as [getSignees] builds it, as a JavaScript value: one
    user with one signature, whose custom field [employer] is the empty
    string. *)
Definition bobObject : Cache.jsval :=
  Cache.Object
    [("_id", Cache.Str "b1");
     ("user", Cache.Str "bob");
     ("created_at", Cache.Str "2024-05-05T12:00:00.000Z");
     ("custom_fields",
      Cache.Object [("name", Cache.Str "Bob"); ("employer", Cache.Str "")])].

Definition bobMap : Cache.jsval :=
  Cache.Map [(Cache.Str "bob", Cache.Array [bobObject])]
            [("timestamp", Cache.Date "2024-06-01T00:00:00.000Z" [])].

(** The same signature without the custom field [employer]. *)
Definition bobRead : Cache.jsval :=
  Cache.Object
    [("_id", Cache.Str "b1");
     ("user", Cache.Str "bob");
     ("created_at", Cache.Str "2024-05-05T12:00:00.000Z");
     ("custom_fields", Cache.Object [("name", Cache.Str "Bob")])].

(** A signee map without falsy value: one user, one signature with a
    revocation date and nested custom fields. *)
Definition carlObject : Cache.jsval :=
  Cache.Object
    [("_id", Cache.Str "c1");
     ("user", Cache.Str "carl");
     ("created_at", Cache.Str "2024-01-15T09:00:00.000Z");
     ("revoked_at", Cache.Str "2024-03-01T00:00:00.000Z");
     ("custom_fields",
      Cache.Object [("name", Cache.Str "Carl"); ("age", Cache.Number 41);
                    ("agreed", Cache.Bool true)])].

Definition carlMap : Cache.jsval :=
  Cache.Map [(Cache.Str "carl", Cache.Array [carlObject])]
            [("timestamp", Cache.Date "2024-06-01T00:00:00.000Z" [])].

(** [new Date(v).toISOString()] on the ISO texts of the examples. *)
Definition newDate (v : Cache.jsval) : string :=
  match v with Cache.Str s => s | _ => "Invalid Date" end.

End Example.

(** * Properties *)

(** ** The order on strings *)

Section StringOrder.

Lemma ltb_leb (a b : string) : String.ltb a b = negb (String.leb b a).
Proof.
  unfold String.ltb, String.leb. rewrite (String.compare_antisym b a).
  by destruct (String.compare a b).
Qed.

Lemma ltb_irrefl (a : string) : String.ltb a a = false.
Proof.
  rewrite ltb_leb. apply negb_false_iff, Is_true_true.
  by apply (reflexivity (R := String.le)).
Qed.

Lemma ltb_asym (a b : string) : String.ltb a b = true → String.ltb b a = false.
Proof.
  rewrite !ltb_leb, negb_true_iff, negb_false_iff. intros Hba.
  destruct (String.leb_total a b) as [H|H]; [done | congruence].
Qed.

Lemma ltb_connex (a b : string) :
  String.ltb a b = false → String.ltb b a = false → a = b.
Proof.
  rewrite !ltb_leb, !negb_false_iff. intros H1 H2. by apply String.leb_antisym.
Qed.

Lemma ltb_trans (a b c : string) :
  String.ltb a b = true → String.ltb b c = true → String.ltb a c = true.
Proof.
  rewrite !ltb_leb, !negb_true_iff. intros Hba Hcb.
  destruct (String.leb c a) eqn:Hca; [|done].
  assert (String.le b a) as Hle.
  { transitivity c; apply Is_true_true; [|done].
    destruct (String.leb_total b c) as [H|H]; [done | congruence]. }
  apply Is_true_true in Hle. congruence.
Qed.

Lemma ltb_leb_trans (a b c : string) :
  String.ltb b a = false → String.ltb c b = false → String.ltb c a = false.
Proof.
  rewrite !ltb_leb, !negb_false_iff. intros H1 H2.
  apply Is_true_true. transitivity b; by apply Is_true_true.
Qed.

Lemma eqb_false_ne (a b : string) : String.eqb a b = false ↔ a ≠ b.
Proof. apply String.eqb_neq. Qed.

End StringOrder.

(** ** The sort *)

Section SortFacts.
Context {A : Type} (comparefn : A → A → Z).

Lemma insert_Permutation (x : A) (l : list A) :
  JS.insert comparefn x l ≡ₚ x :: l.
Proof.
  induction l as [|y l IH]; simpl; [done|].
  destruct (0 <? comparefn x y); [|done].
  rewrite IH. apply Permutation_swap.
Qed.

Lemma sort_Permutation (l : list A) : JS.sort comparefn l ≡ₚ l.
Proof.
  induction l as [|x l IH]; simpl; [done|].
  rewrite insert_Permutation. by rewrite IH.
Qed.

Lemma sort_elem_of (x : A) (l : list A) : x ∈ JS.sort comparefn l ↔ x ∈ l.
Proof. by rewrite sort_Permutation. Qed.

Lemma sort_length (l : list A) : length (JS.sort comparefn l) = length l.
Proof. by rewrite sort_Permutation. Qed.

Lemma sort_nil_inv (l : list A) : JS.sort comparefn l = [] → l = [].
Proof.
  intros H. apply nil_length_inv. rewrite <- sort_length. by rewrite H.
Qed.

(** On elements where the comparer is a total preorder ([ok]), the sort
    puts every element before the ones it is to precede. *)
Context (ok : A → Prop).
Let before (x y : A) : Prop := comparefn x y ≤ 0.
Context (before_total : ∀ x y, ok x → ok y → 0 < comparefn x y → before y x).
Context (before_trans :
           ∀ x y z, ok x → ok y → ok z → before x y → before y z → before x z).

Lemma insert_sorted (x : A) (l : list A) :
  ok x → Forall ok l →
  StronglySorted before l → StronglySorted before (JS.insert comparefn x l).
Proof using before_total before_trans.
  intros Hx Hl Hs. induction Hs as [|y l Hs IH Hy]; simpl.
  - repeat constructor.
  - apply Forall_cons in Hl as [Hoky Hl].
    destruct (0 <? comparefn x y) eqn:Hc.
    + apply Z.ltb_lt in Hc. constructor; [by apply IH|].
      rewrite insert_Permutation. constructor; [by apply before_total | done].
    + apply Z.ltb_ge in Hc. constructor; [by constructor|].
      constructor; [done|].
      rewrite Forall_forall in Hy, Hl. apply Forall_forall. intros z Hz.
      apply (before_trans x y z); auto.
Qed.

Lemma sort_sorted (l : list A) :
  Forall ok l → StronglySorted before (JS.sort comparefn l).
Proof using before_total before_trans.
  induction l as [|x l IH]; simpl; intros Hl; [constructor|].
  apply Forall_cons in Hl as [Hx Hl].
  apply insert_sorted; [done | by rewrite sort_Permutation | by apply IH].
Qed.

End SortFacts.

(** ** Comparisons that are total preorders, and their lexicographic product *)

Section Lexicographic.
Context {A : Type}.

Record preorderCmp (f : A → A → comparison) : Prop := {
  cmp_opp : ∀ x y, f x y = CompOpp (f y x);
  cmp_lt_trans : ∀ x y z, f x y = Lt → f y z = Lt → f x z = Lt;
  cmp_eq_l : ∀ x y z, f x y = Eq → f x z = f y z
}.

Definition lex (f g : A → A → comparison) (x y : A) : comparison :=
  match f x y with Eq => g x y | r => r end.

Lemma cmp_eq_r f : preorderCmp f → ∀ x y z, f y z = Eq → f x y = f x z.
Proof.
  intros Hf x y z Hyz.
  rewrite (cmp_opp f Hf x y), (cmp_opp f Hf x z). f_equal.
  symmetry. apply (cmp_eq_l f Hf).
  rewrite (cmp_opp f Hf). by rewrite Hyz.
Qed.

Lemma lex_preorder f g : preorderCmp f → preorderCmp g → preorderCmp (lex f g).
Proof.
  intros Hf Hg. split; unfold lex.
  - intros x y. rewrite (cmp_opp f Hf x y).
    destruct (f y x); simpl; [apply (cmp_opp g Hg) | done | done].
  - intros x y z.
    destruct (f x y) eqn:Hxy; [| |done].
    + rewrite (cmp_eq_l f Hf x y z Hxy).
      destruct (f y z); [|done..]. apply (cmp_lt_trans g Hg).
    + intros _. destruct (f y z) eqn:Hyz; [| |done].
      * rewrite <- (cmp_eq_r f Hf x y z Hyz). by rewrite Hxy.
      * intros _. by rewrite (cmp_lt_trans f Hf x y z Hxy Hyz).
  - intros x y z.
    destruct (f x y) eqn:Hxy; [|done..].
    rewrite (cmp_eq_l f Hf x y z Hxy). intros Hg'.
    destruct (f y z); [|done..]. by apply (cmp_eq_l g Hg).
Qed.

Lemma cmp_not_lt_trans f :
  preorderCmp f → ∀ x y z, f x y ≠ Lt → f y z ≠ Lt → f x z ≠ Lt.
Proof.
  intros Hf x y z Hxy Hyz Hxz.
  destruct (f x y) eqn:E; [| done |].
  - rewrite (cmp_eq_l f Hf x y z E) in Hxz. done.
  - assert (f y x = Lt) as Hyx.
    { rewrite (cmp_opp f Hf). by rewrite E. }
    by rewrite (cmp_lt_trans f Hf y x z Hyx Hxz) in Hyz.
Qed.

Lemma on_preorder {B : Type} (key : A → B) (c : B → B → comparison) :
  (∀ a b, c a b = CompOpp (c b a)) →
  (∀ a b d, c a b = Lt → c b d = Lt → c a d = Lt) →
  (∀ a b, c a b = Eq → a = b) →
  preorderCmp (λ x y, c (key x) (key y)).
Proof.
  intros Hopp Htrans Heq. split; [by auto | by eauto |].
  intros x y z Hxy. by rewrite (Heq _ _ Hxy).
Qed.

End Lexicographic.

Section SignatureOrder.

Lemma compare_ltb (a b : string) : String.ltb a b = true ↔ String.compare a b = Lt.
Proof. unfold String.ltb. by destruct (String.compare a b). Qed.

Lemma compare_eqb (a b : string) : String.eqb a b = true ↔ String.compare a b = Eq.
Proof.
  rewrite String.eqb_eq. split; [intros ->|apply String.compare_eq_iff].
  pose proof (String.compare_antisym b b) as H.
  by destruct (String.compare b b).
Qed.

Lemma compare_lt_trans (a b c : string) :
  String.compare a b = Lt → String.compare b c = Lt → String.compare a c = Lt.
Proof. rewrite <- !compare_ltb. apply ltb_trans. Qed.

(** [undefined] is put below every string: a total order that agrees
    with the comparer on signatures that are all dated or all undated. *)
Definition ocompare (a b : option string) : comparison :=
  match a, b with
  | Some x, Some y => String.compare x y
  | None, None => Eq
  | None, Some _ => Lt
  | Some _, None => Gt
  end.

Definition keyCompare : Signature → Signature → comparison :=
  lex (λ x y, String.compare (created_at x) (created_at y))
      (lex (λ x y, ocompare (gist_committed_at x) (gist_committed_at y))
           (λ x y, String.compare (updated_at x) (updated_at y))).

Lemma keyCompare_preorder : preorderCmp keyCompare.
Proof.
  assert (∀ key : Signature → string,
            preorderCmp (λ x y, String.compare (key x) (key y))) as Hs.
  { intros key. apply (on_preorder key String.compare).
    - apply String.compare_antisym.
    - apply compare_lt_trans.
    - apply String.compare_eq_iff. }
  repeat apply lex_preorder; [apply Hs | | apply Hs].
  apply (on_preorder gist_committed_at ocompare).
  - intros [a|] [b|]; simpl; auto using String.compare_antisym.
  - intros [a|] [b|] [d|]; simpl; try done. apply compare_lt_trans.
  - intros [a|] [b|]; simpl; try done.
    intros H. f_equal. by apply String.compare_eq_iff.
Qed.

Lemma signatureComparer_keyCompare (d : bool) (x y : Signature) :
  dated d x → dated d y →
  signatureComparer x y =
    match keyCompare x y with Lt => 1 | Eq => 0 | Gt => -1 end.
Proof.
  unfold dated, signatureComparer, keyCompare, lex, JS.lt, JS.neq, ocompare.
  intros Hx Hy.
  destruct (String.compare (created_at x) (created_at y)) eqn:Hc.
  - rewrite (proj2 (compare_eqb _ _) Hc). simpl.
    assert (String.ltb (created_at x) (created_at y) = false) as ->.
    { apply not_true_is_false. rewrite compare_ltb. congruence. }
    destruct (gist_committed_at x) as [gx|], (gist_committed_at y) as [gy|];
      simpl in *; try congruence.
    + destruct (String.compare gx gy) eqn:Hg.
      * rewrite (proj2 (compare_eqb _ _) Hg). simpl.
        assert (String.ltb gx gy = false) as ->.
        { apply not_true_is_false. rewrite compare_ltb. congruence. }
        destruct (String.compare (updated_at x) (updated_at y)) eqn:Hu.
        -- rewrite (proj2 (compare_eqb _ _) Hu). simpl.
           assert (String.ltb (updated_at x) (updated_at y) = false) as ->; [|done].
           apply not_true_is_false. rewrite compare_ltb. congruence.
        -- by rewrite (proj2 (compare_ltb _ _) Hu).
        -- assert (String.ltb (updated_at x) (updated_at y) = false) as ->.
           { apply not_true_is_false. rewrite compare_ltb. congruence. }
           assert (String.eqb (updated_at x) (updated_at y) = false) as ->; [|done].
           apply not_true_is_false. rewrite compare_eqb. congruence.
      * by rewrite (proj2 (compare_ltb _ _) Hg).
      * assert (String.ltb gx gy = false) as ->.
        { apply not_true_is_false. rewrite compare_ltb. congruence. }
        assert (String.eqb gx gy = false) as ->; [|done].
        apply not_true_is_false. rewrite compare_eqb. congruence.
    + destruct (String.compare (updated_at x) (updated_at y)) eqn:Hu.
      * rewrite (proj2 (compare_eqb _ _) Hu). simpl.
        assert (String.ltb (updated_at x) (updated_at y) = false) as ->; [|done].
        apply not_true_is_false. rewrite compare_ltb. congruence.
      * by rewrite (proj2 (compare_ltb _ _) Hu).
      * assert (String.ltb (updated_at x) (updated_at y) = false) as ->.
        { apply not_true_is_false. rewrite compare_ltb. congruence. }
        assert (String.eqb (updated_at x) (updated_at y) = false) as ->; [|done].
        apply not_true_is_false. rewrite compare_eqb. congruence.
  - by rewrite (proj2 (compare_ltb _ _) Hc).
  - assert (String.ltb (created_at x) (created_at y) = false) as ->.
    { apply not_true_is_false. rewrite compare_ltb. congruence. }
    assert (String.eqb (created_at x) (created_at y) = false) as ->; [|done].
    apply not_true_is_false. rewrite compare_eqb. congruence.
Qed.

End SignatureOrder.

(** ** The ordering of a signatory's list *)

Section Ordering.

Lemma key_lt_comparer (x y : Signature) :
  key_lt x y = (0 <? signatureComparer x y).
Proof.
  unfold key_lt, signatureComparer.
  destruct (String.ltb (created_at x) (created_at y)),
    (String.eqb (created_at x) (created_at y)),
    (JS.lt (gist_committed_at x) (gist_committed_at y)),
    (JS.neq (gist_committed_at x) (gist_committed_at y)),
    (String.ltb (updated_at x) (updated_at y)),
    (String.eqb (updated_at x) (updated_at y)); reflexivity.
Qed.

Lemma StronglySorted_lookup {A : Type} (R : A → A → Prop) (l : list A) :
  StronglySorted R l →
  ∀ i j x y, (i < j)%nat → l !! i = Some x → l !! j = Some y → R x y.
Proof.
  induction 1 as [|a l Hs IH Ha]; intros i j x y Hij Hi Hj; [done|].
  destruct j as [|j]; [lia|]. simpl in Hj.
  destruct i as [|i]; simpl in Hi.
  - injection Hi as <-. rewrite Forall_forall in Ha.
    apply Ha. by eapply list_elem_of_lookup_2.
  - apply (IH i j); [lia | done | done].
Qed.

Lemma descending_newestFirst (l : list Signature) :
  descending l → (∀ x, x ∈ l → key_lt x x = false) → newestFirst l.
Proof.
  intros Hd Hrefl x y H0 Hy.
  apply list_elem_of_lookup in Hy as [j Hj].
  destruct j as [|j].
  - rewrite H0 in Hj. injection Hj as <-.
    apply Hrefl. by eapply list_elem_of_lookup_2.
  - apply (Hd 0%nat (S j)); [lia | done | done].
Qed.

Lemma key_lt_irrefl (x : Signature) : key_lt x x = false.
Proof.
  unfold key_lt. rewrite !ltb_irrefl. simpl.
  destruct (gist_committed_at x) as [g|]; simpl;
    rewrite ?ltb_irrefl, ?String.eqb_refl, ?andb_false_r; done.
Qed.

(** The comparer sorts a list whose signatures are all dated, or all
    undated, descending by the key, the newest signature first. *)
Lemma sort_descending (d : bool) (l : list Signature) :
  Forall (dated d) l →
  descending (JS.sort signatureComparer l)
  ∧ newestFirst (JS.sort signatureComparer l).
Proof.
  intros Hl.
  assert (∀ x y, dated d x → dated d y → 0 < signatureComparer x y →
                 signatureComparer y x ≤ 0) as Htotal.
  { intros x y Hx Hy.
    rewrite (signatureComparer_keyCompare d x y Hx Hy).
    rewrite (signatureComparer_keyCompare d y x Hy Hx).
    rewrite (cmp_opp _ keyCompare_preorder y x).
    destruct (keyCompare x y); simpl; lia. }
  assert (∀ x y z, dated d x → dated d y → dated d z →
                   signatureComparer x y ≤ 0 → signatureComparer y z ≤ 0 →
                   signatureComparer x z ≤ 0) as Htrans.
  { intros x y z Hx Hy Hz.
    rewrite (signatureComparer_keyCompare d x y Hx Hy).
    rewrite (signatureComparer_keyCompare d y z Hy Hz).
    rewrite (signatureComparer_keyCompare d x z Hx Hz).
    intros Hxy Hyz.
    pose proof (cmp_not_lt_trans _ keyCompare_preorder x y z) as Hn.
    destruct (keyCompare x y), (keyCompare y z), (keyCompare x z);
      try lia; exfalso; apply Hn; done. }
  pose proof (sort_sorted signatureComparer (dated d) Htotal Htrans l Hl) as Hs.
  assert (descending (JS.sort signatureComparer l)) as Hd.
  { intros i j x y Hij Hi Hj. rewrite key_lt_comparer.
    apply Z.ltb_ge. by apply (StronglySorted_lookup _ _ Hs i j). }
  split; [done|].
  apply descending_newestFirst; [done|]. intros; apply key_lt_irrefl.
Qed.

End Ordering.

Section SignatoryLists.

Lemma signatoryList_sorted (l : list Signature) :
  signatoryList l → ∃ l0, l = JS.sort signatureComparer l0.
Proof.
  intros [h w gist signees u l' Hget Hl | map signature l' Hl].
  - unfold getSignees in Hget.
    destruct (perVersionSignatures h w gist (Gist.versions gist)) as [e|values];
      [done|].
    injection Hget as <-. simpl in Hl.
    rewrite lookup_fmap in Hl.
    destruct (foldl collect ∅ (concat values) !! u) as [l0|]; [|done].
    injection Hl as <-. by exists l0.
  - unfold addLocalSignature in Hl.
    destruct (entries map !! user signature) as [signatures|]; simpl in Hl;
      rewrite lookup_insert_eq in Hl; injection Hl as <-.
    + by exists (signatures ++ [signature]).
    + by exists [signature].
Qed.

End SignatoryLists.


(** The comparer on a dated and an undated signature with the same
    [created_at]: each is to precede the other. *)
Lemma signatureComparer_undated (a b : Signature) :
  created_at a = created_at b →
  gist_committed_at a = None →
  is_Some (gist_committed_at b) →
  signatureComparer a b = -1 ∧ signatureComparer b a = -1.
Proof.
  intros Hc Ha [g Hb]. unfold signatureComparer.
  rewrite Hc, Ha, Hb, ltb_irrefl, String.eqb_refl. done.
Qed.



(** ** No empty list in the published map *)

Section NonEmpty.

Lemma collect_nonEmpty map signature :
  nonEmptyLists map → nonEmptyLists (collect map signature).
Proof.
  intros Hm. unfold collect.
  destruct (map !! user signature) as [signatures|];
    apply map_Forall_insert_2; try done.
  by destruct signatures.
Qed.

Lemma foldl_collect_nonEmpty signatures map :
  nonEmptyLists map → nonEmptyLists (foldl collect map signatures).
Proof.
  revert map. induction signatures as [|s l IH]; intros map Hm; simpl; [done|].
  by apply IH, collect_nonEmpty.
Qed.

Lemma sorted_nonEmpty (map : gmap string (list Signature)) :
  nonEmptyLists map → nonEmptyLists (JS.sort signatureComparer <$> map).
Proof.
  intros Hm u l. rewrite lookup_fmap.
  destruct (map !! u) as [l0|] eqn:Hu; [|done].
  intros [= <-] Hnil. apply sort_nil_inv in Hnil. by apply (Hm u l0).
Qed.

Lemma buildSignees_nonEmpty now values :
  nonEmptyLists (entries (buildSignees now values)).
Proof.
  apply sorted_nonEmpty, foldl_collect_nonEmpty. apply map_Forall_empty.
Qed.

Lemma getSignees_nonEmpty h w gist signees :
  getSignees h w gist = inr signees → nonEmptyLists (entries signees).
Proof.
  unfold getSignees.
  destruct (perVersionSignatures h w gist (Gist.versions gist)); [done|].
  intros [= <-]. apply buildSignees_nonEmpty.
Qed.

Lemma addLocalSignature_nonEmpty map signature sort :
  nonEmptyLists (entries map) →
  nonEmptyLists (entries (addLocalSignature map signature sort)).
Proof.
  intros Hm. unfold addLocalSignature.
  destruct (entries map !! user signature) as [signatures|]; simpl;
    apply map_Forall_insert_2; try done.
  destruct sort.
  - intros Hnil. apply sort_nil_inv in Hnil. by destruct signatures.
  - by destruct signatures.
Qed.

Lemma mergeLocal_nonEmpty signees signatures merged :
  (∀ map, signees = Some map → nonEmptyLists (entries map)) →
  mergeLocal signees signatures = Some merged →
  nonEmptyLists (entries merged).
Proof.
  destruct signees as [map|]; [|done]. simpl. intros Hm [= <-].
  specialize (Hm map eq_refl). revert map Hm.
  induction signatures as [|s l IH]; intros map Hm; simpl; [done|].
  by apply IH, addLocalSignature_nonEmpty.
Qed.

Lemma resolved_signees cfg h w disableCache signees :
  local_signees (catchUpstream cfg w disableCache (tryUpstream h w)) = Some signees →
  (∃ gist, getSignees h w gist = inr signees) ∨ readFile_signees w = inr signees.
Proof.
  unfold catchUpstream, tryUpstream.
  destruct (getGist (post_getGist w)) as [ex|gist]; simpl.
  - destruct (JS.truthy (CLA_FILECACHE cfg) && negb disableCache); [|done].
    destruct (readFile_gist w); [done|].
    destruct (readFile_signees w); [done|]. simpl. intros [= <-]. by right.
  - destruct (getSignees h w gist) as [ex|s] eqn:Hs; simpl.
    + destruct (JS.truthy (CLA_FILECACHE cfg) && negb disableCache); [|done].
      destruct (readFile_gist w); [done|].
      destruct (readFile_signees w); [done|]. simpl. intros [= <-]. by right.
    + intros [= <-]. left. by exists gist.
Qed.

Lemma globalReload_nonEmpty cfg h w ignoreErrors disableCache st :
  cacheNonEmpty w → publishedNonEmpty st →
  publishedNonEmpty (next (globalReload cfg h w ignoreErrors disableCache st)).
Proof.
  intros Hw Hst. unfold globalReload.
  set (l := catchUpstream cfg w disableCache (tryUpstream h w)).
  assert (∀ map, local_signees l = Some map → nonEmptyLists (entries map)) as Hl.
  { intros map Hmap. apply resolved_signees in Hmap as [[gist Hg]|Hc].
    - by eapply getSignees_nonEmpty.
    - by apply Hw. }
  assert (publishedNonEmpty
            (State (caught l) (local_gist l)
               (match (if JS.truthy (CLA_FILELOCAL cfg)
                       then Some (getLocalSignatures cfg w (signaturesDir st))
                       else None) with
                | Some (signatures, _) => mergeLocal (local_signees l) signatures
                | None => local_signees l
                end) (signaturesDir st))) as Hpub.
  { intros merged. simpl.
    destruct (JS.truthy (CLA_FILELOCAL cfg)).
    - destruct (getLocalSignatures cfg w (signaturesDir st)) as [signatures ?].
      by apply mergeLocal_nonEmpty.
    - apply Hl. }
  destruct (caught l) as [ex|]; [destruct ignoreErrors|]; simpl; done.
Qed.

End NonEmpty.

Section Served.

Lemma receiveUpload_nonEmpty cfg h w request st :
  publishedNonEmpty st → publishedNonEmpty (receiveUpload cfg h w request st).2.
Proof.
  intros Hst. unfold receiveUpload.
  repeat (match goal with
          | |- context [if ?b then _ else _] => destruct b
          | |- context [match ?x with _ => _ end] => destruct x eqn:?
          end; simpl; try done).
  intros signees [= <-]. apply addLocalSignature_nonEmpty. by apply Hst.
Qed.

Lemma router_list_nonEmpty cfg h w request st :
  cacheNonEmpty w → publishedNonEmpty st →
  publishedNonEmpty (router_list cfg h w request st).2.
Proof.
  intros Hw Hst. unfold router_list.
  pose proof (receiveUpload_nonEmpty cfg h w request st Hst) as Hup.
  destruct (receiveUpload cfg h w request st) as [uploadStatus st1].
  simpl in Hup.
  destruct (needsAuthorization h (authorization request) (CLA_LIST_AUTH cfg)).
  - by destruct uploadStatus.
  - assert (publishedNonEmpty
              (next (if bool_decide (query_reload request = Some "true")
                     then globalReload cfg h w false true st1
                     else Outcome None None st1))) as Hre.
    { case_bool_decide; [by apply globalReload_nonEmpty | done]. }
    destruct (thrown _); [done|]. by destruct (globalSignees _).
Qed.

Lemma router_reload_nonEmpty cfg h w st :
  cacheNonEmpty w → publishedNonEmpty st →
  publishedNonEmpty (router_reload cfg h w st).2.
Proof.
  intros Hw Hst. unfold router_reload.
  pose proof (globalReload_nonEmpty cfg h w false true st Hw Hst).
  by destruct (thrown _).
Qed.

Lemma router_list_username_nonEmpty cfg h w username reload st :
  cacheNonEmpty w → publishedNonEmpty st →
  publishedNonEmpty (router_list_username cfg h w username reload st).2.
Proof.
  intros Hw Hst. unfold router_list_username.
  assert (publishedNonEmpty
            (next (if bool_decide (reload = Some "true")
                   then globalReload cfg h w false true st
                   else Outcome None None st))) as Hre.
  { case_bool_decide; [by apply globalReload_nonEmpty | done]. }
  repeat (match goal with
          | |- context [if ?b then _ else _] => destruct b
          | |- context [match ?x with _ => _ end] => destruct x eqn:?
          end; simpl; try done).
Qed.

Lemma startup_nonEmpty cfg h w dir :
  cacheNonEmpty w → publishedNonEmpty (startup cfg h w dir).
Proof.
  intros Hw. unfold startup.
  destruct (negb (JS.truthy (GITHUB_ORGID cfg))); [done|].
  destruct (negb (JS.truthy (GITHUB_ORGTOKEN cfg))); [done|].
  by apply globalReload_nonEmpty.
Qed.

Lemma handle_nonEmpty cfg h st c :
  cacheNonEmpty c.2 → publishedNonEmpty st → publishedNonEmpty (handle cfg h st c).
Proof.
  intros Hw Hst. unfold handle. destruct c.1.
  - by apply router_reload_nonEmpty.
  - by apply router_list_username_nonEmpty.
  - by apply router_list_nonEmpty.
Qed.

Lemma serve_nonEmpty cfg h w0 dir calls :
  cacheNonEmpty w0 → Forall (λ c, cacheNonEmpty c.2) calls →
  publishedNonEmpty (serve cfg h w0 dir calls).
Proof.
  intros Hw0 Hcalls. unfold serve.
  pose proof (startup_nonEmpty cfg h w0 dir Hw0) as Hst.
  revert Hst. generalize (startup cfg h w0 dir).
  induction Hcalls as [|c calls Hc Hcalls IH]; intros st Hst; simpl; [done|].
  by apply IH, handle_nonEmpty.
Qed.

End Served.


(** ** Merging local signatures *)

Section Merge.

Lemma addLocalSignature_signaturesOf map signature sort u x :
  x ∈ signaturesOf (entries (addLocalSignature map signature sort)) u
  ↔ x ∈ signaturesOf (entries map) u ∨ (x = signature ∧ user signature = u).
Proof.
  unfold addLocalSignature, signaturesOf.
  destruct (entries map !! user signature) as [signatures|] eqn:Hu; simpl.
  - destruct (decide (user signature = u)) as [<-|Hne].
    + rewrite lookup_insert_eq, Hu. simpl.
      destruct sort; rewrite ?sort_elem_of, elem_of_app, list_elem_of_singleton;
        naive_solver.
    + rewrite lookup_insert_ne by done. naive_solver.
  - destruct (decide (user signature = u)) as [<-|Hne].
    + rewrite lookup_insert_eq, Hu. simpl.
      rewrite list_elem_of_singleton, elem_of_nil. naive_solver.
    + rewrite lookup_insert_ne by done. naive_solver.
Qed.

Lemma addLocalSignature_timestamp map signature sort :
  timestamp (addLocalSignature map signature sort) = timestamp map.
Proof.
  unfold addLocalSignature. by destruct (entries map !! user signature).
Qed.

Lemma addLocalSignature_present map signature sort :
  ∃ l, entries (addLocalSignature map signature sort) !! user signature = Some l
       ∧ signature ∈ l.
Proof.
  unfold addLocalSignature.
  destruct (entries map !! user signature) as [signatures|]; simpl;
    rewrite lookup_insert_eq; eexists; (split; [done|]).
  - destruct sort; rewrite ?sort_elem_of; set_solver.
  - set_solver.
Qed.

Lemma addLocalSignature_keeps map signature sort u l :
  entries map !! u = Some l →
  ∃ l', entries (addLocalSignature map signature sort) !! u = Some l'.
Proof.
  intros Hl. unfold addLocalSignature.
  destruct (entries map !! user signature) as [signatures|]; simpl;
    (destruct (decide (user signature = u)) as [<-|Hne];
     [rewrite lookup_insert_eq | rewrite lookup_insert_ne by done]); eauto.
Qed.

Lemma merged_signaturesOf signatures map u x :
  x ∈ signaturesOf (entries (merged map signatures)) u
  ↔ x ∈ signaturesOf (entries map) u ∨ (x ∈ signatures ∧ user x = u).
Proof.
  unfold merged. revert map.
  induction signatures as [|s l IH]; intros map; simpl.
  - rewrite elem_of_nil. naive_solver.
  - rewrite IH, addLocalSignature_signaturesOf, elem_of_cons. naive_solver.
Qed.

Lemma merged_timestamp signatures map :
  timestamp (merged map signatures) = timestamp map.
Proof.
  unfold merged. revert map.
  induction signatures as [|s l IH]; intros map; simpl; [done|].
  by rewrite IH, addLocalSignature_timestamp.
Qed.

Lemma merged_keeps signatures map u l :
  entries map !! u = Some l → ∃ l', entries (merged map signatures) !! u = Some l'.
Proof.
  unfold merged. revert map l.
  induction signatures as [|s sl IH]; intros map l Hl; simpl; [eauto|].
  destruct (addLocalSignature_keeps map s true u l Hl) as [l' Hl'].
  by apply (IH _ l').
Qed.

Lemma merged_present signatures map x :
  x ∈ signatures →
  ∃ l, entries (merged map signatures) !! user x = Some l ∧ x ∈ l.
Proof.
  intros Hx.
  assert (x ∈ signaturesOf (entries (merged map signatures)) (user x)) as H.
  { apply merged_signaturesOf. by right. }
  unfold signaturesOf in H.
  destruct (entries (merged map signatures) !! user x) as [l|]; simpl in H.
  - by exists l.
  - by apply elem_of_nil in H.
Qed.

Lemma mergeLocal_Some map signatures :
  mergeLocal (Some map) signatures = Some (merged map signatures).
Proof. done. Qed.

End Merge.

(** ** The reload *)

Section Reload.

Lemma getGist_empty_history (data : gistData) :
  history data = [] →
  getGist (inr data) =
    inl (Error "Failed to receive gist for the organization."
               (Some (Error "No gist history available." None))).
Proof. intros H. unfold getGist. simpl. by rewrite H. Qed.

Lemma getGist_versions response gist :
  getGist response = inr gist → Gist.versions gist ≠ [].
Proof.
  unfold getGist. destruct response as [e|data]; [done|].
  destruct (0 <? _)%nat eqn:Hlen; [|done].
  intros [= <-]. simpl in *. by destruct (history data).
Qed.

(** Without a file cache that loads, whatever the upstream calls threw is
    in [ex] after the [catch], alone or inside the aggregate. *)
Lemma catchUpstream_no_fallback cfg w disableCache l ex :
  caught l = Some ex →
  fallbackLoads cfg w disableCache = false →
  caught (catchUpstream cfg w disableCache l) =
    Some (if JS.truthy (CLA_FILECACHE cfg) && negb disableCache
          then AggregateError "Both CLA and file cache failed."
                 [ex; default ex (cacheLoadError w)]
          else ex)
  ∧ local_signees (catchUpstream cfg w disableCache l) = local_signees l.
Proof.
  unfold catchUpstream, fallbackLoads, cacheLoadError. intros Hc Hf.
  rewrite Hc.
  destruct (JS.truthy (CLA_FILECACHE cfg) && negb disableCache); [|done].
  destruct (readFile_gist w); [done|].
  by destruct (readFile_signees w).
Qed.

Lemma catchUpstream_fallback cfg w l ex cachedGist cachedSignees :
  caught l = Some ex →
  JS.truthy (CLA_FILECACHE cfg) = true →
  readFile_gist w = inr cachedGist →
  readFile_signees w = inr cachedSignees →
  catchUpstream cfg w false l = Locals (Some cachedGist) (Some cachedSignees) true None.
Proof.
  unfold catchUpstream. intros -> -> -> ->. done.
Qed.

Lemma globalReload_thrown cfg h w ignoreErrors disableCache st e :
  thrown (globalReload cfg h w ignoreErrors disableCache st) = Some e →
  ignoreErrors = false
  ∧ caught (catchUpstream cfg w disableCache (tryUpstream h w)) = Some e
  ∧ next (globalReload cfg h w ignoreErrors disableCache st) =
      State (Some e) (globalGist st) (globalSignees st) (signaturesDir st).
Proof.
  unfold globalReload.
  destruct (caught (catchUpstream cfg w disableCache (tryUpstream h w)))
    as [ex|]; [destruct ignoreErrors|]; simpl; try done.
  by intros [= <-].
Qed.

Lemma failed_reload_keeps_snapshot_aux cfg h w ignoreErrors disableCache st e :
  thrown (globalReload cfg h w ignoreErrors disableCache st) = Some e →
  globalGist (next (globalReload cfg h w ignoreErrors disableCache st))
  = globalGist st
  ∧ globalSignees (next (globalReload cfg h w ignoreErrors disableCache st))
    = globalSignees st.
Proof.
  intros Hthrown.
  destruct (globalReload_thrown _ _ _ _ _ _ _ Hthrown) as (_ & _ & ->). done.
Qed.

Lemma globalReload_globalError cfg h w ignoreErrors disableCache st :
  globalError (next (globalReload cfg h w ignoreErrors disableCache st)) =
    caught (catchUpstream cfg w disableCache (tryUpstream h w)).
Proof.
  unfold globalReload.
  destruct (caught (catchUpstream cfg w disableCache (tryUpstream h w)))
    as [ex|] eqn:Hc; [destruct ignoreErrors|]; simpl; done.
Qed.

Lemma globalReload_signaturesDir cfg h w ignoreErrors disableCache st :
  signaturesDir (next (globalReload cfg h w ignoreErrors disableCache st)) =
    signaturesDir st.
Proof.
  unfold globalReload.
  destruct (caught (catchUpstream cfg w disableCache (tryUpstream h w)))
    as [ex|]; [destruct ignoreErrors|]; simpl; done.
Qed.

(** A reload that ends without error in [globalError] publishes the
    data it resolved, with the local signatures merged in. *)
Lemma globalReload_healthy cfg h w ignoreErrors disableCache st :
  caught (catchUpstream cfg w disableCache (tryUpstream h w)) = None →
  ∃ gist signees,
    catchUpstream cfg w disableCache (tryUpstream h w)
    = Locals (Some gist) (Some signees)
             (gotCached (catchUpstream cfg w disableCache (tryUpstream h w))) None
    ∧ globalReload cfg h w ignoreErrors disableCache st =
        Outcome None
          (if negb (gotCached (catchUpstream cfg w disableCache (tryUpstream h w)))
              && JS.truthy (CLA_FILECACHE cfg)
           then Some (gist, signees) else None)
          (State None (Some gist)
             (Some (if JS.truthy (CLA_FILELOCAL cfg)
                    then merged signees
                           (getLocalSignatures cfg w (signaturesDir st)).1
                    else signees))
             (signaturesDir st)).
Proof.
  intros Hc. unfold globalReload. rewrite Hc.
  assert (∃ gist signees,
            local_gist (catchUpstream cfg w disableCache (tryUpstream h w)) = Some gist
            ∧ local_signees (catchUpstream cfg w disableCache (tryUpstream h w))
              = Some signees) as (gist & signees & Hg & Hs).
  { revert Hc. unfold catchUpstream, tryUpstream.
    destruct (getGist (post_getGist w)) as [ex|gist]; simpl.
    - destruct (JS.truthy (CLA_FILECACHE cfg) && negb disableCache); [|done].
      destruct (readFile_gist w); [done|].
      destruct (readFile_signees w); [done|]. simpl. eauto.
    - destruct (getSignees h w gist) as [ex|s]; simpl; [|eauto].
      destruct (JS.truthy (CLA_FILECACHE cfg) && negb disableCache); [|done].
      destruct (readFile_gist w); [done|].
      destruct (readFile_signees w); [done|]. simpl. eauto. }
  exists gist, signees. rewrite Hg, Hs. simpl. split.
  - destruct (catchUpstream cfg w disableCache (tryUpstream h w)); simpl in *.
    by subst.
  - destruct (JS.truthy (CLA_FILELOCAL cfg)); simpl; [|done].
    by destruct (getLocalSignatures cfg w (signaturesDir st)).
Qed.

End Reload.

(** C2: when the upstream calls of a reload fail, the file cache is
    configured, the reload was not told to disable it (the reload of the
    start is [globalReload true false]) and both cache files load, the
    reload ends without throwing, [globalError] is unset, and what is
    published is the gist of the cache and the signee map of the cache
    with the local signatures merged in: the same timestamp, and for every
    user the signatures of the cache and the local signatures of that
    user. *)
Theorem fallback_reload_healthy (cfg : config) (h : host) (w : world)
    (ignoreErrors : bool) (st : state) (ex : error)
    (cachedGist : Gist.t) (cachedSignees : Signees) :
  caught (tryUpstream h w) = Some ex →
  JS.truthy (CLA_FILECACHE cfg) = true →
  readFile_gist w = inr cachedGist →
  readFile_signees w = inr cachedSignees →
  let r := globalReload cfg h w ignoreErrors false st in
  let signatures := (getLocalSignatures cfg w (signaturesDir st)).1 in
  thrown r = None
  ∧ globalError (next r) = None
  ∧ globalGist (next r) = Some cachedGist
  ∧ globalSignees (next r) = Some (merged cachedSignees signatures)
  ∧ timestamp (merged cachedSignees signatures) = timestamp cachedSignees
  ∧ (∀ u x, x ∈ signaturesOf (entries (merged cachedSignees signatures)) u
            ↔ x ∈ signaturesOf (entries cachedSignees) u
              ∨ (x ∈ signatures ∧ user x = u))
  ∧ (JS.truthy (CLA_FILELOCAL cfg) = false →
     globalSignees (next r) = Some cachedSignees).
Proof.
  intros Hex Hcache Hg Hs r signatures.
  pose proof (catchUpstream_fallback cfg w _ ex _ _ Hex Hcache Hg Hs) as Hl.
  assert (caught (catchUpstream cfg w false (tryUpstream h w)) = None) as Hc
    by (by rewrite Hl).
  destruct (globalReload_healthy cfg h w ignoreErrors false st Hc)
    as (gist & signees & Hl' & Hr).
  rewrite Hl in Hl'. injection Hl' as <- <-.
  subst r. rewrite Hr. simpl.
  assert (JS.truthy (CLA_FILELOCAL cfg) = false → signatures = []) as Hnone.
  { intros Hf. subst signatures. unfold getLocalSignatures. by rewrite Hf. }
  repeat split; try done.
  - destruct (JS.truthy (CLA_FILELOCAL cfg)) eqn:Hlocal; [done|].
    by rewrite (Hnone eq_refl).
  - apply merged_timestamp.
  - by apply merged_signaturesOf.
  - by apply merged_signaturesOf.
  - intros Hf. by rewrite Hf.
Qed.

Lemma fallback_reload_healthy_witness :
  let r := globalReload Example.cfg Example.h Example.cached true false Example.serving in
  let signatures :=
    (getLocalSignatures Example.cfg Example.cached (signaturesDir Example.serving)).1 in
  thrown r = None
  ∧ globalError (next r) = None
  ∧ globalGist (next r) = Some Example.cachedGist
  ∧ globalSignees (next r) = Some (merged Example.cachedSignees signatures)
  ∧ timestamp (merged Example.cachedSignees signatures)
    = timestamp Example.cachedSignees
  ∧ (∀ u x, x ∈ signaturesOf (entries (merged Example.cachedSignees signatures)) u
            ↔ x ∈ signaturesOf (entries Example.cachedSignees) u
              ∨ (x ∈ signatures ∧ user x = u))
  ∧ (JS.truthy (CLA_FILELOCAL Example.cfg) = false →
     globalSignees (next r) = Some Example.cachedSignees).
Proof.
  apply (fallback_reload_healthy Example.cfg Example.h Example.cached true
           Example.serving
           (Error "Failed to receive gist for the organization."
                  (Some Example.failed))); reflexivity.
Defined.

(** C3: a reload that throws leaves [globalGist] and [globalSignees] (and
    the directory of local signatures) as they were; only [globalError] is
    set, to the error thrown. [router.get('/reload')] answers 500 exactly
    then. *)
Theorem failed_reload_keeps_snapshot (cfg : config) (h : host) (w : world)
    (ignoreErrors disableCache : bool) (st : state) (e : error) :
  thrown (globalReload cfg h w ignoreErrors disableCache st) = Some e →
  let st' := next (globalReload cfg h w ignoreErrors disableCache st) in
  globalGist st' = globalGist st
  ∧ globalSignees st' = globalSignees st
  ∧ signaturesDir st' = signaturesDir st
  ∧ globalError st' = Some e.
Proof.
  intros Hthrown st'. subst st'.
  destruct (globalReload_thrown _ _ _ _ _ _ _ Hthrown) as (_ & _ & ->). done.
Qed.

Lemma failed_reload_keeps_snapshot_witness :
  let st' := next (globalReload Example.cfg Example.h Example.offline false true
                     Example.serving) in
  globalGist st' = globalGist Example.serving
  ∧ globalSignees st' = globalSignees Example.serving
  ∧ signaturesDir st' = signaturesDir Example.serving
  ∧ globalError st' =
      Some (Error "Failed to receive gist for the organization."
                  (Some Example.failed)).
Proof.
  apply (failed_reload_keeps_snapshot Example.cfg Example.h Example.offline
           false true Example.serving). reflexivity.
Defined.

(** The [/reload] route answers 500 exactly when the reload threw, and then
    with the snapshot it found. *)
Lemma router_reload_failed (cfg : config) (h : host) (w : world) (st : state) :
  status (router_reload cfg h w st).1 = 500 →
  globalGist (router_reload cfg h w st).2 = globalGist st
  ∧ globalSignees (router_reload cfg h w st).2 = globalSignees st.
Proof.
  unfold router_reload.
  destruct (thrown (globalReload cfg h w false true st)) as [e|] eqn:Hthrown;
    simpl; [|done].
  intros _.
  by apply (failed_reload_keeps_snapshot_aux cfg h w false true st e).
Qed.





(** ** Reading the local signatures *)

Section LocalSignatures.

Lemma foldl_settle files acc :
  foldl settle acc files =
    (acc.1 ++ omap signedIn files, acc.2 ++ omap skippedAs files).
Proof.
  revert acc. induction files as [|[name content] files IH]; intros [sigs warns].
  - simpl. by rewrite !app_nil_r.
  - simpl. rewrite IH. unfold settle, signedIn, skippedAs. simpl.
    destruct content; simpl; by rewrite <- ?app_assoc.
Qed.

Lemma settled_Permutation w dir : settled w dir ≡ₚ map_to_list dir.
Proof. apply sort_Permutation. Qed.

Lemma getLocalSignatures_Permutation cfg w dir :
  JS.truthy (CLA_FILELOCAL cfg) = true →
  (getLocalSignatures cfg w dir).1 ≡ₚ omap signedIn (map_to_list dir)
  ∧ (getLocalSignatures cfg w dir).2 ≡ₚ omap skippedAs (map_to_list dir).
Proof.
  intros Hlocal. unfold getLocalSignatures. rewrite Hlocal. simpl.
  rewrite foldl_settle. simpl. by rewrite !settled_Permutation.
Qed.

Lemma getLocalSignatures_elem_of cfg w dir s :
  JS.truthy (CLA_FILELOCAL cfg) = true →
  s ∈ (getLocalSignatures cfg w dir).1 ↔ ∃ file, dir !! file = Some (Signed s).
Proof.
  intros Hlocal.
  destruct (getLocalSignatures_Permutation cfg w dir Hlocal) as [-> _].
  rewrite list_elem_of_omap. split.
  - intros ([name content] & Hin & Hs). apply elem_of_map_to_list in Hin.
    unfold signedIn in Hs. simpl in Hs. destruct content; simplify_eq. eauto.
  - intros [name Hin]. exists (name, Signed s).
    split; [by apply elem_of_map_to_list | done].
Qed.

End LocalSignatures.

(** C9: with a directory of local signatures in which some files cannot
    be read or are not JSON, [getLocalSignatures] returns (in the order in
    which the reads settle) exactly the signatures of the other files,
    each once, and logs one warning for each file it skipped. *)
Theorem local_signatures_skip_failed (cfg : config) (w : world)
    (dir : gmap string localFile) :
  JS.truthy (CLA_FILELOCAL cfg) = true →
  (getLocalSignatures cfg w dir).1 ≡ₚ omap signedIn (map_to_list dir)
  ∧ (getLocalSignatures cfg w dir).2 ≡ₚ omap skippedAs (map_to_list dir)
  ∧ (∀ s, s ∈ (getLocalSignatures cfg w dir).1
          ↔ ∃ file, dir !! file = Some (Signed s))
  ∧ (∀ file e, dir !! file = Some (Unreadable e) ∨ dir !! file = Some (Malformed e) →
               ("Skipping failed to read signature file: " +:+ file)
               ∈ (getLocalSignatures cfg w dir).2).
Proof.
  intros Hlocal.
  destruct (getLocalSignatures_Permutation cfg w dir Hlocal) as [Hs Hw].
  split; [done|]. split; [done|]. split.
  - intros s. by apply getLocalSignatures_elem_of.
  - intros file e Hfile. rewrite Hw. apply list_elem_of_omap.
    destruct Hfile as [Hfile|Hfile]; eexists (file, _);
      (split; [apply elem_of_map_to_list; exact Hfile | done]).
Qed.

Lemma local_signatures_skip_failed_witness :
  (getLocalSignatures Example.cfg Example.tied Example.damaged).1
    ≡ₚ omap signedIn (map_to_list Example.damaged)
  ∧ (getLocalSignatures Example.cfg Example.tied Example.damaged).2
    ≡ₚ omap skippedAs (map_to_list Example.damaged)
  ∧ (∀ s, s ∈ (getLocalSignatures Example.cfg Example.tied Example.damaged).1
          ↔ ∃ file, Example.damaged !! file = Some (Signed s))
  ∧ (∀ file e,
       Example.damaged !! file = Some (Unreadable e)
       ∨ Example.damaged !! file = Some (Malformed e) →
       ("Skipping failed to read signature file: " +:+ file)
       ∈ (getLocalSignatures Example.cfg Example.tied Example.damaged).2).
Proof.
  apply (local_signatures_skip_failed Example.cfg Example.tied Example.damaged).
  reflexivity.
Defined.

(** ** Uploaded signatures *)

Section Upload.

Lemma signatureFromUpload_origin cfg h w request formData signature :
  signatureFromUpload cfg h w request formData = inr signature →
  ∃ who, origin signature = Some ("local|" +:+ who)
         ∧ user signature = or_default (signerEmail formData) "".
Proof.
  unfold signatureFromUpload.
  destruct (Date_toISOString h (signedDate formData)); [done|].
  intros [= <-]. simpl. eauto.
Qed.

Lemma prefix_local who : String.prefix "local|" ("local|" +:+ who) = true.
Proof. simpl. by destruct who. Qed.

(** What an accepted upload has done. *)
Lemma receiveUpload_accepted cfg h w request st :
  (receiveUpload cfg h w request st).1 = Some "CLA added succesfully." →
  ∃ signature who map,
    JS.truthy (CLA_FILELOCAL cfg) = true
    ∧ origin signature = Some ("local|" +:+ who)
    ∧ user signature = or_default (body_email request) ""
    ∧ globalSignees st = Some map
    ∧ (receiveUpload cfg h w request st).2 =
        State (globalError st) (globalGist st)
              (Some (addLocalSignature map signature true))
              (<[localSignatureFile signature := Signed signature]>
                 (signaturesDir st)).
Proof.
  unfold receiveUpload.
  destruct (JS.truthy (CLA_FILELOCAL cfg)) eqn:Hlocal; simpl; [|done].
  destruct (negb (needsAuthorization _ _ _) && _); simpl; [|done].
  destruct (file request) as [file|]; simpl; [|done].
  destruct (falsy (body_name request)); simpl; [done|].
  destruct (falsy (body_email request)); simpl; [done|].
  destruct (falsy (body_signed request)); simpl; [done|].
  destruct (fs_rename w); simpl; [by intros [=]|].
  destruct (signatureFromUpload _ _ _ _ _) as [ex|signature] eqn:Hsig; simpl;
    [by intros [=]|].
  destruct (fs_writeFile w); simpl; [by intros [=]|].
  destruct (globalSignees st) as [map|]; simpl; [|by intros [=]].
  intros _.
  destruct (signatureFromUpload_origin _ _ _ _ _ _ Hsig) as (who & Ho & Hu).
  exists signature, who, map. simpl in Hu. done.
Qed.

Lemma reload_publishes_local cfg h w ignoreErrors disableCache st file signature :
  JS.truthy (CLA_FILELOCAL cfg) = true →
  signaturesDir st !! file = Some (Signed signature) →
  globalError (next (globalReload cfg h w ignoreErrors disableCache st)) = None →
  publishedFor (next (globalReload cfg h w ignoreErrors disableCache st)) signature.
Proof.
  intros Hlocal Hfile Hok. rewrite globalReload_globalError in Hok.
  destruct (globalReload_healthy cfg h w ignoreErrors disableCache st Hok)
    as (gist & signees & _ & ->). simpl. rewrite Hlocal.
  destruct (merged_present (getLocalSignatures cfg w (signaturesDir st)).1
              signees signature) as (l & Hl & Hin).
  { apply getLocalSignatures_elem_of; [done|]. by exists file. }
  by exists (merged signees (getLocalSignatures cfg w (signaturesDir st)).1), l.
Qed.

Lemma reload_thrown_publishedFor cfg h w ignoreErrors disableCache st e signature :
  thrown (globalReload cfg h w ignoreErrors disableCache st) = Some e →
  publishedFor st signature →
  publishedFor (next (globalReload cfg h w ignoreErrors disableCache st)) signature.
Proof.
  intros Hthrown (published & l & Hp & Hl & Hin).
  destruct (failed_reload_keeps_snapshot_aux cfg h w ignoreErrors disableCache st e
              Hthrown) as [_ Hs].
  exists published, l. by rewrite Hs.
Qed.

End Upload.



(** ** The alternate lookup *)

Section Lookup.

Lemma collect_signaturesOf map signature u x :
  x ∈ signaturesOf (collect map signature) u
  ↔ x ∈ signaturesOf map u ∨ (x = signature ∧ user signature = u).
Proof.
  unfold collect, signaturesOf.
  destruct (map !! user signature) as [signatures|] eqn:Hu; simpl.
  - destruct (decide (user signature = u)) as [<-|Hne].
    + rewrite lookup_insert_eq, Hu. simpl.
      rewrite elem_of_app, list_elem_of_singleton. naive_solver.
    + rewrite lookup_insert_ne by done. naive_solver.
  - destruct (decide (user signature = u)) as [<-|Hne].
    + rewrite lookup_insert_eq, Hu. simpl.
      rewrite list_elem_of_singleton, elem_of_nil. naive_solver.
    + rewrite lookup_insert_ne by done. naive_solver.
Qed.

Lemma foldl_collect_signaturesOf signatures map u x :
  x ∈ signaturesOf (foldl collect map signatures) u
  ↔ x ∈ signaturesOf map u ∨ (x ∈ signatures ∧ user x = u).
Proof.
  revert map. induction signatures as [|s l IH]; intros map; simpl.
  - rewrite elem_of_nil. naive_solver.
  - rewrite IH, collect_signaturesOf, elem_of_cons. naive_solver.
Qed.

Lemma signaturesOf_lookup (map : gmap string (list Signature)) u x :
  x ∈ signaturesOf map u → ∃ l, map !! u = Some l ∧ x ∈ l.
Proof.
  unfold signaturesOf. destruct (map !! u) as [l|]; simpl; [eauto|].
  by intros ?%elem_of_nil.
Qed.

Lemma sorted_signaturesOf (map : gmap string (list Signature)) u x :
  x ∈ signaturesOf (JS.sort signatureComparer <$> map) u ↔ x ∈ signaturesOf map u.
Proof.
  unfold signaturesOf. rewrite lookup_fmap.
  destruct (map !! u); simpl; [apply sort_elem_of | done].
Qed.

(** Filing a signatory under values only adds signatures to lists. *)
Lemma file_under_mono (signatory : string * list Signature) values map k x :
  x ∈ signaturesOf map k →
  x ∈ signaturesOf
        (foldl (λ map value,
                  if String.eqb value signatory.1 then map
                  else <[value := default [] (map !! value) ++ signatory.2]> map)
               map values) k.
Proof.
  revert map. induction values as [|v values IH]; intros map Hx; simpl; [done|].
  apply IH. destruct (String.eqb v signatory.1); [done|].
  unfold signaturesOf in *. destruct (decide (v = k)) as [->|Hne].
  - rewrite lookup_insert_eq. simpl. apply elem_of_app. by left.
  - by rewrite lookup_insert_ne.
Qed.

Lemma file_under_value (signatory : string * list Signature) values map v x :
  v ∈ values → v ≠ signatory.1 → x ∈ signatory.2 →
  x ∈ signaturesOf
        (foldl (λ map value,
                  if String.eqb value signatory.1 then map
                  else <[value := default [] (map !! value) ++ signatory.2]> map)
               map values) v.
Proof.
  intros Hv Hne Hx. revert map.
  induction values as [|v' values IH]; intros map; simpl.
  - by apply elem_of_nil in Hv.
  - apply elem_of_cons in Hv as [<-|Hv]; [|by apply IH].
    apply file_under_mono.
    destruct (String.eqb_spec v signatory.1) as [|_]; [done|].
    unfold signaturesOf. rewrite lookup_insert_eq. simpl.
    apply elem_of_app. by right.
Qed.

Lemma indexSignatory_mono fields map signatory k x :
  x ∈ signaturesOf map k → x ∈ signaturesOf (indexSignatory fields map signatory) k.
Proof. apply file_under_mono. Qed.

Lemma foldl_indexSignatory_mono fields signatories map k x :
  x ∈ signaturesOf map k →
  x ∈ signaturesOf (foldl (indexSignatory fields) map signatories) k.
Proof.
  revert map. induction signatories as [|s l IH]; intros map Hx; simpl; [done|].
  by apply IH, indexSignatory_mono.
Qed.

Lemma foldl_indexSignatory_value fields signatories map signatory v x :
  signatory ∈ signatories →
  v ∈ lookupValues fields signatory.2 →
  x ∈ signatory.2 →
  x ∈ signaturesOf map signatory.1 →
  x ∈ signaturesOf (foldl (indexSignatory fields) map signatories) v.
Proof.
  intros Hs Hv Hx. revert map.
  induction signatories as [|s l IH]; intros map Hmap; simpl.
  - by apply elem_of_nil in Hs.
  - apply elem_of_cons in Hs as [<-|Hs].
    + apply foldl_indexSignatory_mono.
      destruct (decide (v = signatory.1)) as [->|Hne].
      * by apply indexSignatory_mono.
      * by apply file_under_value.
    + apply IH; [done|]. by apply indexSignatory_mono.
Qed.

Lemma lookupValues_elem_of fields signatures s f v :
  s ∈ signatures → f ∈ fields → customField s f = Some v →
  v ∈ lookupValues fields signatures.
Proof.
  intros Hs Hf Hv. unfold lookupValues.
  apply elem_of_remove_dups, list_elem_of_bind.
  exists s. split; [|done]. apply list_elem_of_omap. by exists f.
Qed.

End Lookup.

(** C8: with a list of lookup fields configured, the built map has, under
    a value that occurs in one of these fields of some signature, one list
    that holds every signature of every user who has a signature with that
    value; without such a list configured, the map is the one of
    [buildSignees]. *)
Theorem lookup_value_coalesces (fields : list string) (now : string)
    (values : list (list Signature)) (s s' : Signature) (f v : string) :
  f ∈ fields →
  s ∈ concat values →
  customField s f = Some v →
  s' ∈ concat values →
  user s' = user s →
  ∃ l, entries (buildSigneesLookup (Some fields) now values) !! v = Some l
       ∧ s ∈ l ∧ s' ∈ l.
Proof.
  intros Hf Hs Hv Hs' Hu.
  set (byUser := foldl collect ∅ (concat values)).
  assert (∀ x, x ∈ concat values → x ∈ signaturesOf byUser (user x)) as Hby.
  { intros x Hx. apply foldl_collect_signaturesOf. by right. }
  destruct (signaturesOf_lookup _ _ _ (Hby s Hs)) as (sigs & Hsigs & Hin).
  assert (s' ∈ sigs) as Hin'.
  { pose proof (Hby s' Hs') as H'. rewrite Hu in H'.
    unfold signaturesOf in H'. by rewrite Hsigs in H'. }
  assert (∀ x, x ∈ sigs →
            x ∈ signaturesOf
                  (entries (buildSigneesLookup (Some fields) now values)) v) as Hall.
  { intros x Hx. simpl. apply sorted_signaturesOf.
    apply (foldl_indexSignatory_value fields (map_to_list byUser) byUser
             (user s, sigs) v x).
    - by apply elem_of_map_to_list.
    - by apply (lookupValues_elem_of fields sigs s f v).
    - done.
    - unfold signaturesOf. simpl. by rewrite Hsigs. }
  destruct (signaturesOf_lookup _ _ _ (Hall s Hin)) as (l & Hl & Hsl).
  exists l. split; [done|]. split; [done|].
  pose proof (Hall s' Hin') as H'. unfold signaturesOf in H'.
  by rewrite Hl in H'.
Qed.

Lemma lookup_value_coalesces_witness :
  ∃ l, entries (buildSigneesLookup (Some ["internalId"]) "2024-06-01T00:00:00.000Z"
                  [[Example.alice1; Example.alias1]; [Example.alice2]]) !! "42"
       = Some l
       ∧ Example.alice1 ∈ l ∧ Example.alice2 ∈ l.
Proof.
  apply (lookup_value_coalesces ["internalId"] "2024-06-01T00:00:00.000Z"
           [[Example.alice1; Example.alias1]; [Example.alice2]]
           Example.alice1 Example.alice2 "internalId" "42").
  - by apply list_elem_of_singleton.
  - simpl. apply elem_of_cons. by left.
  - reflexivity.
  - simpl. do 2 (apply elem_of_cons; right). apply elem_of_cons. by left.
  - reflexivity.
Defined.

(** The list filed under the shared value holds the signatures of both
    users, newest first. *)
Example lookup_value_list :
  entries (buildSigneesLookup (Some ["internalId"]) "2024-06-01T00:00:00.000Z"
             [[Example.alice1; Example.alias1]; [Example.alice2]]) !! "42"
  = Some [Example.alias1; Example.alice1; Example.alice2].
Proof. vm_compute. reflexivity. Qed.

(** [getSignees] of [server.mjs] files a signature under its user only:
    the list of a key holds the signatures of that user and nothing else. *)
Lemma buildSignees_by_user (now : string) (values : list (list Signature))
    (u : string) (x : Signature) :
  x ∈ signaturesOf (entries (buildSignees now values)) u
  ↔ x ∈ concat values ∧ user x = u.
Proof.
  simpl. rewrite sorted_signaturesOf, foldl_collect_signaturesOf.
  unfold signaturesOf. rewrite lookup_empty. simpl. rewrite elem_of_nil.
  naive_solver.
Qed.

Lemma buildSigneesLookup_None (now : string) (values : list (list Signature)) :
  buildSigneesLookup None now values = buildSignees now values.
Proof. reflexivity. Qed.

(** ** The file cache *)

(** C5 on the code: the signee map [Example.bobMap], written with
    [writeCacheFile] and read back with [readCacheFile], comes back
    without the custom field [employer] of its signature, whose value is
    the empty string: the reviver returns [undefined] for a falsy value
    and [JSON.parse] then deletes the property. What is read differs from
    what was written also when the tag properties [__map] and [__date] are
    set aside. *)
Theorem cache_round_trip_drops_empty_field (newDate : Cache.jsval → string) :
  ∃ read,
    Cache.roundTrip newDate Example.bobMap = inr read
    ∧ read = Cache.Map
               [(Cache.Str "bob", Cache.Array [Example.bobRead])]
               [("timestamp",
                 Cache.Date (newDate (Cache.Str "2024-06-01T00:00:00.000Z"))
                            [("__date", Cache.Str "2024-06-01T00:00:00.000Z")]);
                ("__map",
                 Cache.Array
                   [Cache.Array [Cache.Str "bob"; Cache.Array [Example.bobRead]]])]
    ∧ Cache.untagged read ≠ Cache.untagged Example.bobMap.
Proof.
  eexists. split; [vm_compute; reflexivity|]. split; [reflexivity|].
  vm_compute. intros H. discriminate H.
Qed.

(** The same loss in one step: the reviver on an empty string. *)
Example reviver_falsy (newDate : Cache.jsval → string) :
  Cache.reviver newDate (Cache.Str "") = inr Cache.Undefined
  ∧ Cache.reviver newDate Cache.Null = inr Cache.Undefined
  ∧ Cache.reviver newDate (Cache.Bool false) = inr Cache.Undefined
  ∧ Cache.reviver newDate (Cache.Number 0) = inr Cache.Undefined.
Proof. repeat split. Qed.

(** ** A run of the service *)


(** ** More on the reload *)


(** A reload whose upstream calls succeed ends healthy: nothing is thrown,
    [globalError] is [null], the gist and the freshly built map (with the
    local signatures merged) are published, and the pair without the local
    signatures is saved to the file cache when one is configured. *)
Lemma upstream_reload_healthy (cfg : config) (h : host) (w : world)
    (ignoreErrors disableCache : bool) (st : state) (gist : Gist.t)
    (built : Signees) :
  getGist (post_getGist w) = inr gist →
  getSignees h w gist = inr built →
  globalReload cfg h w ignoreErrors disableCache st =
    Outcome None
      (if JS.truthy (CLA_FILECACHE cfg) then Some (gist, built) else None)
      (State None (Some gist)
         (Some (if JS.truthy (CLA_FILELOCAL cfg)
                then merged built (getLocalSignatures cfg w (signaturesDir st)).1
                else built))
         (signaturesDir st)).
Proof.
  intros Hgist Hbuilt.
  assert (tryUpstream h w = Locals (Some gist) (Some built) false None) as Htry.
  { unfold tryUpstream. by rewrite Hgist, Hbuilt. }
  assert (catchUpstream cfg w disableCache (tryUpstream h w)
          = Locals (Some gist) (Some built) false None) as Hcatch.
  { by rewrite Htry. }
  destruct (globalReload_healthy cfg h w ignoreErrors disableCache st)
    as (gist' & built' & Hl & ->); [by rewrite Hcatch|].
  rewrite Hcatch in Hl. injection Hl as <- <-. by rewrite Hcatch.
Qed.

(** What a reload publishes does not depend on what was published before:
    two reloads with the same answers of the outside and the same
    directory of local signatures, neither of which throws, publish the
    same gist and the same map. *)
Lemma reload_idempotent (cfg : config) (h : host) (w : world)
    (ignoreErrors disableCache : bool) (st st' : state) :
  signaturesDir st = signaturesDir st' →
  thrown (globalReload cfg h w ignoreErrors disableCache st) = None →
  next (globalReload cfg h w ignoreErrors disableCache st)
  = next (globalReload cfg h w ignoreErrors disableCache st')
  ∧ next (globalReload cfg h w ignoreErrors disableCache
            (next (globalReload cfg h w ignoreErrors disableCache st)))
    = next (globalReload cfg h w ignoreErrors disableCache st).
Proof.
  intros Hdir Hthrown.
  assert (∀ a b, signaturesDir a = signaturesDir b →
            thrown (globalReload cfg h w ignoreErrors disableCache a) = None →
            next (globalReload cfg h w ignoreErrors disableCache a)
            = next (globalReload cfg h w ignoreErrors disableCache b)) as Hsame.
  { intros a b Hab. unfold globalReload. rewrite Hab.
    destruct (caught (catchUpstream cfg w disableCache (tryUpstream h w)));
      [destruct ignoreErrors|]; done. }
  split; [by apply Hsame|].
  symmetry. apply Hsame; [|done]. by rewrite globalReload_signaturesDir.
Qed.


(** ** The file cache, on values it gives back *)

Section CacheWritten.
Import Cache.

Lemma max_list_with_le {A : Type} (f : A → nat) (l : list A) (x : A) :
  x ∈ l → (f x ≤ max_list_with f l)%nat.
Proof.
  induction 1 as [x l|x y l Hx IH]; simpl; lia.
Qed.

Lemma members_fmap {A : Type} (f : A → string * option json) (l : list A) :
  members (f <$> l) = omap (λ x, pair (f x).1 <$> (f x).2) l.
Proof.
  unfold members. induction l as [|x l IH]; csimpl; [done|].
  by rewrite IH.
Qed.

Lemma omap_ext_in {A B : Type} (f g : A → option B) (l : list A) :
  (∀ x, x ∈ l → f x = g x) → omap f l = omap g l.
Proof.
  induction l as [|x l IH]; intros H; csimpl; [done|].
  rewrite (H x), IH; [done | | ].
  - intros y Hy. apply H. by right.
  - by left.
Qed.

Lemma fmap_ext_in {A B : Type} (f g : A → B) (l : list A) :
  (∀ x, x ∈ l → f x = g x) → f <$> l = g <$> l.
Proof.
  induction l as [|x l IH]; intros H; csimpl; [done|].
  rewrite (H x), IH; [done | | ].
  - intros y Hy. apply H. by right.
  - by left.
Qed.

(** The members written for a [Map], from the properties after the
    replacer has set [__map]. *)
Lemma members_setProperty (f : jsval → option json) (arr : jsval) (j : json)
    (props : list (string * jsval)) :
  f arr = Some j →
  omap (λ p, pair p.1 <$> f p.2) (setProperty "__map" arr props)
  = membersWithMap j ((λ p, (p.1, f p.2)) <$> props).
Proof.
  intros Harr. induction props as [|p props IH]; csimpl.
  - by rewrite Harr.
  - destruct (String.eqb p.1 "__map") eqn:Hp; csimpl.
    + rewrite Harr. csimpl. by rewrite members_fmap.
    + rewrite IH. unfold members. csimpl. by destruct (f p.2).
Qed.

(** With fuel above three times the nesting depth, the walk of
    [JSON.stringify] writes what [written] says. *)
Lemma serialize_written (n : nat) :
  ∀ (v : jsval) (fuel : nat),
    (height v ≤ n)%nat → (3 * n < fuel)%nat →
    SerializeJSONProperty fuel replacer v = written v.
Proof.
  induction n as [|n IH]; intros v fuel Hv Hfuel.
  - destruct fuel as [|fuel]; [lia|]. destruct v; simpl in Hv; try lia; done.
  - destruct fuel as [|fuel]; [lia|].
    destruct v as [| | | | |items|props|entries props|iso props]; try done.
    + simpl. f_equal. f_equal. apply fmap_ext_in. intros x Hx.
      rewrite IH; [done | | lia].
      pose proof (max_list_with_le height items x Hx). simpl in Hv. lia.
    + simpl. f_equal. f_equal. rewrite members_fmap. simpl.
      apply omap_ext_in. intros p Hp.
      rewrite IH; [done | | lia].
      pose proof (max_list_with_le (λ p, height p.2) props p Hp). simpl in Hv. lia.
    + simpl in Hv.
      destruct fuel as [|fuel1]; [lia|]. destruct fuel1 as [|fuel2]; [lia|].
      change (SerializeJSONProperty (S (S (S fuel2))) replacer (Map entries props))
        with (Some (JObject
                (omap (λ p, pair p.1 <$> SerializeJSONProperty (S (S fuel2)) replacer p.2)
                   (setProperty "__map"
                      (Array ((λ e, Array [e.1; e.2]) <$> entries)) props)))).
      simpl written. f_equal. f_equal.
      rewrite (members_setProperty _ _
                 (JArray ((λ e, JArray [default JNull (written e.1);
                                        default JNull (written e.2)]) <$> entries))).
      * f_equal. apply fmap_ext_in. intros p Hp. f_equal.
        apply IH; [|lia].
        pose proof (max_list_with_le (λ p, height p.2) props p Hp). lia.
      * simpl. f_equal. f_equal. rewrite <- list_fmap_compose.
        apply fmap_ext_in. intros e He. simpl.
        pose proof (max_list_with_le
                      (λ e, Nat.max (height e.1) (height e.2)) entries e He) as Hle.
        simpl in Hle.
        rewrite !IH; [done | lia | lia | lia | lia].
    + simpl. destruct fuel as [|fuel1]; [lia|]. done.
Qed.

Lemma JSON_stringify_written (data : jsval) :
  JSON_stringify data replacer = written data.
Proof.
  unfold JSON_stringify. apply (serialize_written (height data)); lia.
Qed.

End CacheWritten.

Section CacheEquations.
Import Cache.

Lemma written_Array items :
  written (Array items) = Some (JArray ((λ v, default JNull (written v)) <$> items)).
Proof. reflexivity. Qed.

Lemma written_Object props :
  written (Object props)
  = Some (JObject (members ((λ p, (p.1, written p.2)) <$> props))).
Proof. reflexivity. Qed.

Lemma written_Map entries props :
  written (Map entries props)
  = Some (JObject
            (membersWithMap
               (JArray ((λ e, JArray [default JNull (written e.1);
                                      default JNull (written e.2)]) <$> entries))
               ((λ p, (p.1, written p.2)) <$> props))).
Proof. reflexivity. Qed.

Lemma tagged_Array items : tagged (Array items) = Array (tagged <$> items).
Proof. reflexivity. Qed.

Lemma tagged_Object props :
  tagged (Object props) = Object ((λ p, (p.1, tagged p.2)) <$> props).
Proof. reflexivity. Qed.

Lemma tagged_Map entries props :
  tagged (Map entries props)
  = Map ((λ e, (tagged e.1, tagged e.2)) <$> entries)
        (((λ p, (p.1, tagged p.2)) <$> props)
         ++ [("__map", Array ((λ e, Array [tagged e.1; tagged e.2]) <$> entries))]).
Proof. reflexivity. Qed.

Lemma untagged_Array items : untagged (Array items) = Array (untagged <$> items).
Proof. reflexivity. Qed.

Lemma untagged_Object props :
  untagged (Object props) = Object ((λ p, (p.1, untagged p.2)) <$> props).
Proof. reflexivity. Qed.

Lemma untagged_Map entries props :
  untagged (Map entries props)
  = Map ((λ e, (untagged e.1, untagged e.2)) <$> entries)
        (filter (λ p, isTag p = false) ((λ p, (p.1, untagged p.2)) <$> props)).
Proof. reflexivity. Qed.

Lemma height_Array items : height (Array items) = S (max_list_with height items).
Proof. reflexivity. Qed.

Lemma height_Object props :
  height (Object props) = S (max_list_with (λ p, height p.2) props).
Proof. reflexivity. Qed.

Lemma height_Map entries props :
  height (Map entries props)
  = S (Nat.max (max_list_with (λ e, Nat.max (height e.1) (height e.2)) entries)
               (max_list_with (λ p, height p.2) props)).
Proof. reflexivity. Qed.

Lemma Internalize_JArray reviver items :
  InternalizeJSONProperty reviver (JArray items)
  = match reviveElements (InternalizeJSONProperty reviver) items with
    | inl e => inl e
    | inr l => reviver (Array l)
    end.
Proof. reflexivity. Qed.

Lemma Internalize_JObject reviver l :
  InternalizeJSONProperty reviver (JObject l)
  = match reviveMembers (InternalizeJSONProperty reviver) l with
    | inl e => inl e
    | inr props => reviver (Object props)
    end.
Proof. reflexivity. Qed.

Lemma Internalize_JString reviver s :
  InternalizeJSONProperty reviver (JString s) = reviver (Str s).
Proof. reflexivity. Qed.

End CacheEquations.

Section CacheRead.
Import Cache.
Context (newDate : jsval → string).
Context (newDate_iso : ∀ s, newDate (Str s) = s).
Local Arguments written : simpl never.
Local Arguments tagged : simpl never.
Local Arguments untagged : simpl never.
Local Arguments height : simpl never.
Local Arguments InternalizeJSONProperty : simpl never.

Lemma truthy_string (s : string) : s ≠ "" → JS.truthy s = true.
Proof.
  intros Hs. unfold JS.truthy. apply negb_true_iff. by apply String.eqb_neq.
Qed.

Lemma faithful_truthy (v : jsval) : faithful v → truthy (tagged v) = true.
Proof.
  destruct 1; simpl; try done.
  - apply negb_true_iff. by apply Z.eqb_neq.
  - by apply truthy_string.
Qed.

Lemma faithful_defined (v : jsval) : faithful v → tagged v ≠ Undefined.
Proof. intros Hv Hu. apply faithful_truthy in Hv. by rewrite Hu in Hv. Qed.

Lemma getProperty_absent (key : string) (props : list (string * jsval)) :
  key ∉ props.*1 → getProperty key props = Undefined.
Proof.
  unfold getProperty. induction props as [|p props IH]; intros Hk; csimpl; [done|].
  apply not_elem_of_cons in Hk as [Hne Hk].
  destruct (String.eqb_spec p.1 key) as [Heq|_]; [done|]. by apply IH.
Qed.

Lemma getProperty_app_absent (key : string) (v : jsval)
    (props : list (string * jsval)) :
  key ∉ props.*1 → getProperty key (props ++ [(key, v)]) = v.
Proof.
  unfold getProperty. induction props as [|p props IH]; intros Hk; csimpl.
  - by rewrite String.eqb_refl.
  - apply not_elem_of_cons in Hk as [Hne Hk].
    destruct (String.eqb_spec p.1 key) as [Heq|_]; [done|]. by apply IH.
Qed.

Lemma setProperty_fresh (key : string) (v : jsval) (props : list (string * jsval)) :
  key ∉ props.*1 → setProperty key v props = props ++ [(key, v)].
Proof.
  induction props as [|p props IH]; intros Hk; csimpl; [done|].
  apply not_elem_of_cons in Hk as [Hne Hk].
  destruct (String.eqb_spec p.1 key) as [Heq|_]; [done|]. by rewrite IH.
Qed.

Lemma assign_fresh (source target : list (string * jsval)) :
  NoDup (target.*1 ++ source.*1) → assign target source = target ++ source.
Proof.
  unfold assign. revert target.
  induction source as [|[k v] source IH]; intros target Hnd; csimpl.
  - by rewrite app_nil_r.
  - rewrite setProperty_fresh.
    + rewrite IH; [by rewrite <- app_assoc|].
      rewrite fmap_app. csimpl. rewrite <- app_assoc. exact Hnd.
    + apply NoDup_app in Hnd as (_ & Hnd & _). intros Hin.
      apply (Hnd k Hin). csimpl. by left.
Qed.

Lemma plain_no_tag (props : list (string * jsval)) :
  Forall (λ p, isTag p = false) props →
  ("__map" ∉ props.*1) ∧ ("__date" ∉ props.*1).
Proof.
  induction 1 as [|p props Hp Hprops [IH1 IH2]]; csimpl.
  - split; apply not_elem_of_nil.
  - unfold isTag in Hp. apply orb_false_iff in Hp as [Hm Hd].
    apply String.eqb_neq in Hm, Hd.
    split; apply not_elem_of_cons; split; done.
Qed.

Lemma fmap_keys (props : list (string * jsval)) (f : jsval → jsval) :
  ((λ p, (p.1, f p.2)) <$> props).*1 = props.*1.
Proof. rewrite <- list_fmap_compose. by apply fmap_ext_in. Qed.

(** The reviver returns an object without tags, an array, and a truthy
    primitive as they are. *)
Lemma reviver_plain_object (props : list (string * jsval)) :
  "__map" ∉ props.*1 → "__date" ∉ props.*1 →
  reviver newDate (Object props) = inr (Object props).
Proof.
  intros Hm Hd. unfold reviver. simpl.
  by rewrite (getProperty_absent _ _ Hm), (getProperty_absent _ _ Hd).
Qed.

Lemma reviveElements_fmap {A : Type} (revive : json → error + jsval)
    (f : A → json) (g : A → jsval) (l : list A) :
  (∀ x, x ∈ l → revive (f x) = inr (g x)) →
  reviveElements revive (f <$> l) = inr (g <$> l).
Proof.
  induction l as [|x l IH]; intros H; csimpl; [done|].
  rewrite (H x) by (by left). rewrite IH; [done|].
  intros y Hy. apply H. by right.
Qed.

Lemma reviveMembers_app (revive : json → error + jsval)
    (l1 l2 : list (string * json)) (a b : list (string * jsval)) :
  reviveMembers revive l1 = inr a →
  reviveMembers revive l2 = inr b →
  reviveMembers revive (l1 ++ l2) = inr (a ++ b).
Proof.
  revert a. induction l1 as [|m l1 IH]; intros a Ha Hb; simpl in *.
  - by injection Ha as <-.
  - destruct (revive m.2) as [e|v]; [done|].
    destruct (reviveMembers revive l1) as [e|rest]; [done|].
    injection Ha as <-. rewrite (IH rest eq_refl Hb). by destruct v.
Qed.

Lemma reviveMembers_written (revive : json → error + jsval)
    (props : list (string * jsval)) :
  (∀ p, p ∈ props → ∃ j, written p.2 = Some j ∧ revive j = inr (tagged p.2)
                         ∧ tagged p.2 ≠ Undefined) →
  reviveMembers revive (members ((λ p, (p.1, written p.2)) <$> props))
  = inr ((λ p, (p.1, tagged p.2)) <$> props).
Proof.
  induction props as [|p props IH]; intros H; [done|].
  destruct (H p) as (j & Hj & Hr & Hd); [by left|].
  unfold members in *. csimpl. rewrite Hj. csimpl. rewrite Hr.
  rewrite IH by (intros q Hq; apply H; by right).
  by destruct (tagged p.2).
Qed.

Lemma membersWithMap_plain (j : json) (ms : list (string * option json)) :
  "__map" ∉ ms.*1 → membersWithMap j ms = members ms ++ [("__map", j)].
Proof.
  induction ms as [|m ms IH]; intros Hk; simpl; [done|].
  apply not_elem_of_cons in Hk as [Hne Hk].
  destruct (String.eqb_spec m.1 "__map") as [Heq|_]; [done|].
  rewrite IH by done. unfold members. csimpl. by destruct m.2.
Qed.

(** [new Map] on the pairs of distinct string keys. *)
Lemma mapSet_fresh (k : string) (v : jsval) (acc : list (string * jsval)) :
  k ∉ acc.*1 →
  mapSet (Str k) v ((λ kv, (Str kv.1, kv.2)) <$> acc)
  = (λ kv, (Str kv.1, kv.2)) <$> (acc ++ [(k, v)]).
Proof.
  induction acc as [|a acc IH]; intros Hk; csimpl; [done|].
  apply not_elem_of_cons in Hk as [Hne Hk].
  destruct (String.eqb_spec a.1 k) as [Heq|_]; [done|]. by rewrite IH.
Qed.

Lemma mapOf_fresh (g : jsval → jsval) (kvs acc : list (string * jsval)) :
  NoDup (acc.*1 ++ kvs.*1) →
  mapOf ((λ kv, Array [Str kv.1; g kv.2]) <$> kvs) ((λ kv, (Str kv.1, kv.2)) <$> acc)
  = inr ((λ kv, (Str kv.1, kv.2)) <$> (acc ++ ((λ kv, (kv.1, g kv.2)) <$> kvs))).
Proof.
  revert acc. induction kvs as [|kv kvs IH]; intros acc Hnd; csimpl.
  - by rewrite app_nil_r.
  - rewrite mapSet_fresh.
    + rewrite IH.
      * by rewrite <- app_assoc.
      * rewrite fmap_app. csimpl. rewrite <- app_assoc. exact Hnd.
    + apply NoDup_app in Hnd as (_ & Hnd & _). intros Hin.
      apply (Hnd kv.1 Hin). csimpl. by left.
Qed.

Lemma reviver_truthy_string (s : string) :
  s ≠ "" → reviver newDate (Str s) = inr (Str s).
Proof. intros Hs. unfold reviver. simpl. by rewrite (truthy_string s Hs). Qed.

(** What is written for a faithful value reads back as the value with
    its tags. *)
Lemma read_written (n : nat) :
  ∀ v : jsval,
    (height v ≤ n)%nat → faithful v →
    ∃ j, written v = Some j
         ∧ InternalizeJSONProperty (reviver newDate) j = inr (tagged v).
Proof.
  assert (∀ z, z ≠ 0 → InternalizeJSONProperty (reviver newDate) (JNumber z)
                        = inr (Number z)) as Hnumber.
  { intros z Hz. unfold InternalizeJSONProperty, reviver. simpl.
    by rewrite (proj2 (Z.eqb_neq _ _) Hz). }
  induction n as [|n IH]; intros v Hv Hf.
  { destruct Hf; try (by vm_compute in Hv; lia);
      eexists; (split; [reflexivity|]).
    - done.
    - by apply Hnumber.
    - rewrite Internalize_JString. by apply reviver_truthy_string. }
  destruct Hf as [|z Hz|s Hs|items Hitems|props [Hnd Hplain] Hprops
                 |kvs props Hkeys Hkvs [Hnd Hplain] Hprops|iso Hiso].
  - eexists. split; [reflexivity|]. done.
  - eexists. split; [reflexivity|]. by apply Hnumber.
  - eexists. split; [reflexivity|].
    rewrite Internalize_JString. by apply reviver_truthy_string.
  - (* an array *)
    rewrite height_Array in Hv.
    eexists. split; [apply written_Array|].
    rewrite Internalize_JArray, tagged_Array.
    rewrite (reviveElements_fmap _ _ tagged); [done|].
    intros x Hx. rewrite Forall_forall in Hitems.
    destruct (IH x) as (j & -> & Hj); [|by apply Hitems|done].
    pose proof (max_list_with_le height items x Hx). lia.
  - (* an object *)
    rewrite height_Object in Hv.
    eexists. split; [apply written_Object|].
    rewrite Internalize_JObject, tagged_Object.
    rewrite reviveMembers_written.
    + destruct (plain_no_tag props Hplain) as [Hm Hd].
      apply reviver_plain_object; by rewrite fmap_keys.
    + intros p Hp. rewrite Forall_forall in Hprops.
      destruct (IH p.2) as (j & Hj & Hr); [|by apply Hprops|].
      * pose proof (max_list_with_le (λ p, height p.2) props p Hp). lia.
      * exists j. split; [done|]. split; [done|].
        by apply faithful_defined, Hprops.
  - (* a map *)
    rewrite height_Map in Hv.
    destruct (plain_no_tag props Hplain) as [Hm Hd].
    eexists. split; [apply written_Map|].
    rewrite Internalize_JObject, tagged_Map.
    rewrite membersWithMap_plain
      by (rewrite <- list_fmap_compose; by rewrite (fmap_ext_in _ fst props)).
    rewrite Forall_forall in Hprops, Hkvs.
    assert (∀ kv, kv ∈ kvs →
              InternalizeJSONProperty (reviver newDate)
                (JArray [JString kv.1; default JNull (written kv.2)])
              = inr (Array [Str kv.1; tagged kv.2])) as Hpair.
    { intros kv Hkv. destruct (Hkvs kv Hkv) as [Hk Hfv].
      destruct (IH kv.2) as (j & -> & Hr); [|done|].
      - assert ((Str kv.1, kv.2) ∈ (λ kv, (Str kv.1, kv.2)) <$> kvs) as Hin.
        { apply list_elem_of_fmap. by exists kv. }
        pose proof (max_list_with_le
                      (λ e, Nat.max (height e.1) (height e.2)) _ _ Hin) as Hle.
        simpl in Hle. lia.
      - rewrite Internalize_JArray. simpl.
        rewrite Internalize_JString, (reviver_truthy_string kv.1 Hk).
        by rewrite Hr. }
    rewrite (reviveMembers_app _ _ _
               ((λ p, (p.1, tagged p.2)) <$> props)
               [("__map", Array ((λ kv, Array [Str kv.1; tagged kv.2]) <$> kvs))]).
    + unfold reviver. simpl.
      rewrite getProperty_app_absent by (by rewrite fmap_keys). simpl.
      pose proof (mapOf_fresh tagged kvs []) as Hmap. simpl in Hmap.
      rewrite Hmap by done. rewrite assign_fresh.
      * rewrite <- !list_fmap_compose. reflexivity.
      * simpl. rewrite fmap_app, fmap_keys. simpl.
        apply NoDup_app. split; [done|]. split; [|apply NoDup_singleton].
        intros k Hk ->%list_elem_of_singleton. done.
    + apply reviveMembers_written. intros p Hp.
      destruct (IH p.2) as (j & Hj & Hr); [|by apply Hprops|].
      * pose proof (max_list_with_le (λ p, height p.2) props p Hp). lia.
      * exists j. split; [done|]. split; [done|].
        by apply faithful_defined, Hprops.
    + simpl. rewrite Internalize_JArray. rewrite <- list_fmap_compose.
      rewrite (reviveElements_fmap _ _ (λ kv, Array [Str kv.1; tagged kv.2])).
      * done.
      * intros kv Hkv. by apply Hpair.
  - (* a date *)
    eexists. split; [reflexivity|].
    rewrite Internalize_JObject. simpl.
    rewrite Internalize_JString, (reviver_truthy_string iso Hiso).
    unfold reviver. simpl. rewrite (truthy_string iso Hiso).
    change (getProperty "__date" [("__date", Str iso)]) with (Str iso).
    by rewrite newDate_iso.
Qed.

(** Without the tags, what comes back is what was written. *)
Lemma untagged_tagged (n : nat) :
  ∀ v : jsval, (height v ≤ n)%nat → faithful v → untagged (tagged v) = v.
Proof.
  assert (∀ props : list (string * jsval),
            Forall (λ p, isTag p = false) props →
            filter (λ p, isTag p = false) props = props) as Hfilter.
  { induction 1 as [|p props Hp Hprops IHp]; [done|].
    rewrite filter_cons_True by done. by rewrite IHp. }
  induction n as [|n IH]; intros v Hv Hf.
  { destruct Hf; try (by vm_compute in Hv; lia); done. }
  destruct Hf as [|z Hz|s Hs|items Hitems|props [Hnd Hplain] Hprops
                 |kvs props Hkeys Hkvs [Hnd Hplain] Hprops|iso Hiso]; try done.
  - rewrite height_Array in Hv. rewrite tagged_Array, untagged_Array.
    f_equal. rewrite <- list_fmap_compose.
    rewrite <- (list_fmap_id items) at 2. apply fmap_ext_in.
    intros x Hx. rewrite Forall_forall in Hitems. simpl. apply IH; [|by apply Hitems].
    pose proof (max_list_with_le height items x Hx). lia.
  - rewrite height_Object in Hv. rewrite tagged_Object, untagged_Object.
    f_equal. rewrite <- list_fmap_compose.
    rewrite <- (list_fmap_id props) at 2. apply fmap_ext_in.
    intros [k x] Hp. rewrite Forall_forall in Hprops. simpl. f_equal.
    apply IH; [|by apply (Hprops _ Hp)].
    pose proof (max_list_with_le (λ p, height p.2) props _ Hp). simpl in *. lia.
  - rewrite height_Map in Hv. rewrite tagged_Map, untagged_Map.
    rewrite Forall_forall in Hprops, Hkvs. f_equal.
    + rewrite <- !list_fmap_compose. apply fmap_ext_in.
      intros [k x] Hkv. simpl. f_equal.
      apply IH; [|by apply (Hkvs _ Hkv)].
      assert ((Str k, x) ∈ (λ kv, (Str kv.1, kv.2)) <$> kvs) as Hin.
      { apply list_elem_of_fmap. by exists (k, x). }
      pose proof (max_list_with_le
                    (λ e, Nat.max (height e.1) (height e.2)) _ _ Hin) as Hle.
      simpl in Hle. lia.
    + rewrite fmap_app, filter_app. simpl.
      rewrite filter_cons_False by done. rewrite filter_nil, app_nil_r.
      rewrite <- list_fmap_compose.
      assert ((λ p : string * jsval, (p.1, untagged p.2)) ∘
                (λ p : string * jsval, (p.1, tagged p.2)) <$> props = props) as ->.
      { rewrite <- (list_fmap_id props) at 2. apply fmap_ext_in.
        intros [k x] Hp. simpl. f_equal.
        apply IH; [|by apply (Hprops _ Hp)].
        pose proof (max_list_with_le (λ p, height p.2) props _ Hp).
        simpl in *. lia. }
      by apply Hfilter.
Qed.

End CacheRead.


(** Decides [Cache.faithful] on a value given in full. *)
Ltac faithful_value :=
  repeat match goal with
         | |- Cache.faithful _ => constructor
         | |- Cache.plainProps _ => split
         | |- Forall _ _ => constructor
         | |- NoDup _ => csimpl; first [apply NoDup_nil_2 | apply NoDup_cons_2]
         | |- _ ∧ _ => split
         | |- _ ∉ _ => by set_solver
         | |- _ ≠ _ => done
         | |- _ = _ => done
         end.


(** ** The reload on the examples *)


Lemma upstream_reload_healthy_witness :
  ∃ gist built,
    getGist (post_getGist Example.tied) = inr gist
    ∧ getSignees Example.h Example.tied gist = inr built
    ∧ globalReload Example.cfg Example.h Example.tied false false Example.serving
      = Outcome None (Some (gist, built))
          (State None (Some gist)
             (Some (merged built
                      (getLocalSignatures Example.cfg Example.tied
                         (signaturesDir Example.serving)).1))
             (signaturesDir Example.serving)).
Proof.
  eexists _, _.
  split; [vm_compute; reflexivity|]. split; [vm_compute; reflexivity|].
  apply (upstream_reload_healthy Example.cfg Example.h Example.tied false false
           Example.serving); vm_compute; reflexivity.
Defined.

Lemma reload_idempotent_witness :
  next (globalReload Example.cfg Example.h Example.cached false false
          Example.serving)
  = next (globalReload Example.cfg Example.h Example.cached false false
            (State (Some Example.failed) None None (signaturesDir Example.serving)))
  ∧ next (globalReload Example.cfg Example.h Example.cached false false
            (next (globalReload Example.cfg Example.h Example.cached false false
                     Example.serving)))
    = next (globalReload Example.cfg Example.h Example.cached false false
              Example.serving).
Proof.
  apply (reload_idempotent Example.cfg Example.h Example.cached false false
           Example.serving
           (State (Some Example.failed) None None (signaturesDir Example.serving)));
    reflexivity.
Defined.

(** The comparer on a signature of [carl] whose version the history does
    not list and the dated signature of the same moment. *)
Lemma signatureComparer_undated_witness :
  signatureComparer
    (Example.upstream "c0" "carl" "2024-01-15T09:00:00.000Z" "v0") Example.carl
  = -1
  ∧ signatureComparer Example.carl
      (Example.upstream "c0" "carl" "2024-01-15T09:00:00.000Z" "v0")
    = -1.
Proof.
  apply (signatureComparer_undated
           (Example.upstream "c0" "carl" "2024-01-15T09:00:00.000Z" "v0")
           Example.carl); [reflexivity|reflexivity|by eexists].
Defined.
